(** * A status-feed watcher: the incremental polling logic of status_tracker.py

    The development embeds the watcher of [status_tracker.py] as Rocq
    functions and proves properties of its text normaliser ([strip_html]),
    its classifier ([detect_product_and_message]), its conditional fetch
    ([_fetch_if_changed]), one poll cycle ([_check_once]) and the poll
    loop ([run_forever]).

    Text is [string]: a sequence of 8-bit characters read as the code
    points 0..255, on which Python's notions of white space and of lower
    case are the two small tables [is_space] and [lower_char] below.
    [seen_keys] is a [gset string].  The effects of the program
    (exceptions, the answers of the network, what is printed, the waits)
    are explicit: every awaited call takes its outcome from a script and
    every function returns the new watcher, the events it produced and its
    result or the exception it raised. *)

From Stdlib Require Import Ascii ZArith Lia.
From Stdlib Require String.
From stdpp Require Import base option list gmap strings.

Local Open Scope Z_scope.
Set Warnings "-clear-no-such-hyp".

(** ** Characters and strings *)

Module Text.

(** The characters [str.isspace], [str.strip] and the regular expression
    class [\s] agree on, below code point 256: TAB..CR, FS..US, the
    space, NEL and the no-break space. *)
Definition is_space (c : ascii) : bool :=
  let n := N_of_ascii c in
  ((9 <=? n) && (n <=? 13) || (28 <=? n) && (n <=? 32)
   || (n =? 133) || (n =? 160))%N.

(** [str.lower] on one code point below 256: A..Z and the Latin-1
    capitals (all of 192..222 but the multiplication sign 215) move up
    by 32. *)
Definition lower_char (c : ascii) : ascii :=
  let n := N_of_ascii c in
  if ((65 <=? n) && (n <=? 90)
      || (192 <=? n) && (n <=? 222) && negb (n =? 215))%N
  then ascii_of_N (n + 32) else c.

Fixpoint lower (s : string) : string :=
  match s with
  | "" => ""
  | String c r => String (lower_char c) (lower r)
  end.

(** Truth value of a string: the empty string is false. *)
Definition nonempty (s : string) : bool :=
  match s with "" => false | _ => true end.

(** [a or b] on strings. *)
Definition str_or (a b : string) : string := if nonempty a then a else b.

(** [p] is an initial segment of [s]. *)
Fixpoint starts_with (p s : string) : bool :=
  match p, s with
  | "", _ => true
  | String a p', String b s' => Ascii.eqb a b && starts_with p' s'
  | String _ _, "" => false
  end.

(** [needle in hay]. *)
Fixpoint str_in (needle hay : string) : bool :=
  starts_with needle hay
  || match hay with
     | "" => false
     | String _ r => str_in needle r
     end.

(** [str.strip()] removes the white space at both ends. *)
Fixpoint lstrip (s : string) : string :=
  match s with
  | "" => ""
  | String c r => if is_space c then lstrip r else s
  end.

Fixpoint rstrip (s : string) : string :=
  match s with
  | "" => ""
  | String c r =>
      match rstrip r with
      | "" => if is_space c then "" else String c ""
      | r' => String c r'
      end
  end.

Definition strip (s : string) : string := rstrip (lstrip s).

(** *** [re.sub] for patterns that never match the empty string

    A pattern is given by its anchored matcher: [m s] is the rest of [s]
    after the (unique, greedy) match of the pattern at the head of [s],
    or [None] when the pattern does not match there.  [re.sub] scans
    from the left; at a match it emits the replacement and resumes after
    the match, elsewhere it copies one character.  The scan runs on a
    counter that starts at the length of the text, which is enough
    because every match consumes at least one character
    ([re_sub_cons]). *)
Definition matcher := string → option string.

Fixpoint re_sub_from (fuel : nat) (m : matcher) (repl s : string) : string :=
  match fuel, s with
  | _, "" => ""
  | O, _ => s
  | S fuel', String c r =>
      match m s with
      | Some rest => repl +:+ re_sub_from fuel' m repl rest
      | None => String c (re_sub_from fuel' m repl r)
      end
  end.

Definition re_sub (m : matcher) (repl s : string) : string :=
  re_sub_from (String.length s) m repl s.

(** [[^>]*>] at the head of [s]: the text after the first [>]. *)
Fixpoint after_gt (s : string) : option string :=
  match s with
  | "" => None
  | String c r => if Ascii.eqb c ">" then Some r else after_gt r
  end.

(** [<[^>]+>]: a [<], at least one character that is not [>], then the
    first [>]. *)
Definition match_tag : matcher := λ s,
  match s with
  | String a (String c r) =>
      if Ascii.eqb a "<" && negb (Ascii.eqb c ">") then after_gt r else None
  | _ => None
  end.

Fixpoint drop_prefix (p s : string) : option string :=
  match p, s with
  | "", _ => Some s
  | String a p', String b s' =>
      if Ascii.eqb a b then drop_prefix p' s' else None
  | String _ _, "" => None
  end.

(** The literal [&nbsp;]. *)
Definition match_nbsp : matcher := drop_prefix "&nbsp;".

(** [\s+]: a white-space character and all those that follow it. *)
Definition match_ws : matcher := λ s,
  match s with
  | String c r => if is_space c then Some (lstrip r) else None
  | "" => None
  end.

(** *** Predicates on texts, for the statements below *)

(** [t] is what is left of [s] after some characters. *)
Inductive suffix_of (t : string) : string → Prop :=
| suffix_here : suffix_of t t
| suffix_later c s : suffix_of t s → suffix_of t (String c s).

(** A matcher consumes at least one character and returns what
    follows. *)
Definition cuts (m : matcher) : Prop :=
  ∀ s rest, m s = Some rest → ∃ c r, s = String c r ∧ suffix_of rest r.

(** The pattern of [m] matches nowhere in [s]. *)
Fixpoint unmatched (m : matcher) (s : string) : Prop :=
  match s with
  | "" => True
  | String _ r => m s = None ∧ unmatched m r
  end.

(** Wherever [m'] does not match in [s], neither does [m]. *)
Fixpoint covered (m m' : matcher) (s : string) : Prop :=
  match s with
  | "" => True
  | String _ r => (m' s = None → m s = None) ∧ covered m m' r
  end.

(** No character of [p] is a space or starts a match of [m']. *)
Fixpoint plain (m' : matcher) (p : string) : Prop :=
  match p with
  | "" => True
  | String a p' =>
      Ascii.eqb a " " = false ∧ (∀ x, m' (String a x) = None) ∧ plain m' p'
  end.

Definition head_not_space (s : string) : Prop :=
  match s with
  | "" => True
  | String d _ => is_space d = false
  end.

(** Every white-space character of [s] is a space, and no two of them
    are neighbours. *)
Fixpoint ws_norm (s : string) : Prop :=
  match s with
  | "" => True
  | String c r => (is_space c = true → c = " "%char ∧ head_not_space r) ∧ ws_norm r
  end.

(** A matcher that needs only the text it consumed. *)
Definition local_matcher (m : matcher) : Prop :=
  ∀ t w, m (t +:+ w) = None → m t = None.

(** [needle] is a substring of [hay]. *)
Definition occurs (needle hay : string) : Prop :=
  ∃ a b, hay = a +:+ needle +:+ b.

(** [needle] is a substring of [text] up to the case of letters. *)
Definition occurs_ci (needle text : string) : Prop :=
  ∃ a u b, text = a +:+ u +:+ b ∧ lower u = lower needle.

(** [s] is white space only. *)
Fixpoint all_space (s : string) : Prop :=
  match s with
  | "" => True
  | String c r => is_space c = true ∧ all_space r
  end.

(** [needle] starts with a character that is not white space. *)
Definition head_plain (needle : string) : Prop :=
  match needle with
  | "" => False
  | String a _ => is_space a = false
  end.

End Text.

(** ** The text normaliser *)

Definition strip_html (text : string) : string :=
  let text := Text.re_sub Text.match_tag " " text in
  let text := Text.re_sub Text.match_nbsp " " text in
  let text := Text.re_sub Text.match_ws " " text in
  Text.strip text.

(** ** The classifier *)

Definition FEED_URL : string := "https://status.openai.com/history.atom".

Definition PRODUCT_PATTERNS : list (string * string) :=
  [ ("chat/completions", "OpenAI API - Chat Completions");
    ("chat completions", "OpenAI API - Chat Completions");
    ("responses api", "OpenAI API - Responses");
    ("assistants api", "OpenAI API - Assistants");
    ("realtime api", "OpenAI API - Realtime");
    ("files api", "OpenAI API - Files");
    ("file api", "OpenAI API - Files");
    ("embeddings api", "OpenAI API - Embeddings");
    ("embeddings", "OpenAI API - Embeddings");
    ("fine-tuning api", "OpenAI API - Fine-tuning");
    ("fine tuning api", "OpenAI API - Fine-tuning");
    ("openai api", "OpenAI API") ].

(** The [for needle, product_label in PRODUCT_PATTERNS] loop: the label of
    the first pair whose needle occurs in [full_text]. *)
Fixpoint scan_patterns (full_text : string) (patterns : list (string * string))
  : option string :=
  match patterns with
  | [] => None
  | (needle, product_label) :: rest =>
      if Text.str_in needle full_text then Some product_label
      else scan_patterns full_text rest
  end.

(** [body.strip() or title.strip()]. *)
Definition message_of (title body : string) : string :=
  Text.str_or (Text.strip body) (Text.strip title).

Definition detect_product_and_message (title body : string)
  : option string * option string :=
  let full_text := Text.lower (title +:+ " " +:+ body) in
  match scan_patterns full_text PRODUCT_PATTERNS with
  | Some product_label => (Some product_label, Some (message_of title body))
  | None =>
      if Text.str_in "api" full_text
      then (Some "OpenAI API", Some (message_of title body))
      else (None, None)
  end.

(** ** The watcher *)

(** An [atom:entry] as the loop reads it: each field is the result of
    [findtext] with default [""]. *)
Record Entry := {
  entry_id : string;
  updated : string;
  title : string;
  summary : string;
  content : string
}.

Record AtomStatusWatcher := {
  feed_url : string;
  poll_interval : Z;
  etag : option string;
  last_modified : option string;
  seen_keys : gset string
}.

(** [AtomStatusWatcher.__init__]. *)
Definition __init__ (feed_url : string) (poll_interval_seconds : Z)
  : AtomStatusWatcher :=
  {| feed_url := feed_url;
     poll_interval := poll_interval_seconds;
     etag := None;
     last_modified := None;
     seen_keys := ∅ |}.

(** Exceptions.  [CancelledError] is the cancellation request of asyncio
    (not a subclass of [Exception]); the others are subclasses of
    [Exception]: a failed request, a status of 400 or more, a document
    that is not well-formed XML, a delay that [asyncio.sleep] cannot
    convert to a float. *)
Inductive exn :=
| CancelledError
| ClientError
| ClientResponseError (status : Z)
| ParseError
| OverflowError.

(** [except Exception] catches it. *)
Definition is_Exception (e : exn) : bool :=
  match e with CancelledError => false | _ => true end.

Inductive outcome (A : Type) :=
| Returns (a : A)
| Raises (e : exn).
Arguments Returns {A} a.
Arguments Raises {A} e.

(** What the server answers: the status, the two validator headers when
    present, and what [await resp.text()] gives. *)
Record Response := {
  status : Z;
  ETag : option string;
  Last_Modified : option string;
  text : outcome string
}.

(** What a run of the watcher does, in order.  [NewEntry entry printed]
    marks an entry that passed the duplicate test (line 114 was reached
    for it) together with the product and message [_print_event] wrote
    for it, if it was called. *)
Inductive Event :=
| Get (url : string) (headers : list (string * string))
| NewEntry (entry : Entry) (printed : option (string * string))
| LogException (exc : exn)
| Sleep (seconds : Z).

(** Truth value of an [Optional[str]]. *)
Definition truthy (o : option string) : bool :=
  match o with
  | Some s => Text.nonempty s
  | None => false
  end.

(** The conditional request headers, lines 75-79. *)
Definition request_headers (self : AtomStatusWatcher) : list (string * string) :=
  (if truthy (etag self) then [("If-None-Match", default "" (etag self))] else [])
  ++ (if truthy (last_modified self)
      then [("If-Modified-Since", default "" (last_modified self))] else []).

(** [headers.get(name, fallback)]. *)
Definition header_get (header fallback : option string) : option string :=
  match header with
  | Some v => Some v
  | None => fallback
  end.

Definition set_validators (self : AtomStatusWatcher) (resp : Response)
  : AtomStatusWatcher :=
  {| feed_url := feed_url self;
     poll_interval := poll_interval self;
     etag := header_get (ETag resp) (etag self);
     last_modified := header_get (Last_Modified resp) (last_modified self);
     seen_keys := seen_keys self |}.

(** [_fetch_if_changed]; [got] is the outcome of [session.get]. *)
Definition _fetch_if_changed (self : AtomStatusWatcher) (got : outcome Response)
  : AtomStatusWatcher * list Event * outcome (option string) :=
  let request := [Get (feed_url self) (request_headers self)] in
  match got with
  | Raises e => (self, request, Raises e)
  | Returns resp =>
      if status resp =? 304 then (self, request, Returns None)
      else if 400 <=? status resp
        then (self, request, Raises (ClientResponseError (status resp)))
        else
          let self := set_validators self resp in
          match text resp with
          | Returns body => (self, request, Returns (Some body))
          | Raises e => (self, request, Raises e)
          end
  end.

(** Lines 102-107: the key under which an entry is remembered. *)
Definition identity_key (entry : Entry) : string :=
  let key := entry_id entry +:+ "|" +:+ updated entry in
  if negb (Text.nonempty (entry_id entry)) || negb (Text.nonempty (updated entry))
  then Text.str_or (Text.str_or (entry_id entry) (updated entry)) ""
  else key.

(** [if product and message: self._print_event(product, message)]. *)
Definition notification (product message : option string)
  : option (string * string) :=
  match product, message with
  | Some p, Some m => if truthy product && truthy message then Some (p, m) else None
  | _, _ => None
  end.

(** [summary or content or title or ""], line 121. *)
Definition body_raw (entry : Entry) : string :=
  Text.str_or (Text.str_or (Text.str_or (summary entry) (content entry))
                           (title entry)) "".

(** Lines 117-126, for an entry that is new: what [_print_event] is
    called with, if it is called. *)
Definition classify_entry (entry : Entry) : option (string * string) :=
  let body_clean := strip_html (body_raw entry) in
  let '(product, message) := detect_product_and_message (title entry) body_clean in
  notification product message.

Definition add_key (self : AtomStatusWatcher) (key : string) : AtomStatusWatcher :=
  {| feed_url := feed_url self;
     poll_interval := poll_interval self;
     etag := etag self;
     last_modified := last_modified self;
     seen_keys := {[ key ]} ∪ seen_keys self |}.

(** One turn of the [for entry in entries] loop, lines 102-126: [None] is
    [continue], otherwise the watcher with the key added and the event of
    the entry. *)
Definition loop_body (self : AtomStatusWatcher) (entry : Entry)
  : option (AtomStatusWatcher * Event) :=
  let key := entry_id entry +:+ "|" +:+ updated entry in
  let fresh key := Some (add_key self key, NewEntry entry (classify_entry entry)) in
  if negb (Text.nonempty (entry_id entry)) || negb (Text.nonempty (updated entry))
  then
    let key := Text.str_or (Text.str_or (entry_id entry) (updated entry)) "" in
    if decide (key ∈ seen_keys self) then None else fresh key
  else
    if decide (key ∈ seen_keys self) then None else fresh key.

Fixpoint for_entries (entries : list Entry) (self : AtomStatusWatcher)
  (changed : bool) : AtomStatusWatcher * bool * list Event :=
  match entries with
  | [] => (self, changed, [])
  | entry :: rest =>
      match loop_body self entry with
      | None => for_entries rest self changed
      | Some (self, ev) =>
          let '(self, changed, evs) := for_entries rest self true in
          (self, changed, ev :: evs)
      end
  end.

(** The entries a trace marks as new, and what was printed. *)
Definition new_entries (tr : list Event) : list Entry :=
  omap (λ ev, match ev with NewEntry e _ => Some e | _ => None end) tr.

Definition printed_events (tr : list Event) : list (string * string) :=
  omap (λ ev, match ev with NewEntry _ p => p | _ => None end) tr.

(** The pause between two cycles: it ends, or it is cancelled. *)
Inductive sleep_outcome := Woke | SleepCancelled.

(** The least integer that does not fit a float: the conversion rounds
    to nearest, so it overflows from half-way between the largest float
    and [2^1024] on. *)
Definition SLEEP_OVERFLOW : Z := Eval vm_compute in 2 ^ 1024 - 2 ^ 970.

(** [await asyncio.sleep(delay)].  A positive delay is converted to a
    float before anything is awaited: with an integer from
    [SLEEP_OVERFLOW] on the call raises [OverflowError] and does not
    wait.  Otherwise it waits, and the wait ends or is cancelled. *)
Definition asyncio_sleep (delay : Z) (o : sleep_outcome) : option exn :=
  if SLEEP_OVERFLOW <=? delay then Some OverflowError
  else match o with
       | Woke => None
       | SleepCancelled => Some CancelledError
       end.

(** What the world does during one cycle. *)
Record Tick := {
  got : outcome Response;
  slept : sleep_outcome
}.

Inductive loop_status :=
| Running
| Terminated (e : exn).

Section Watcher.

(** The XML library: [ET.fromstring] followed by [findall] of the
    [atom:entry] children, in document order, each read with
    [findtext]; [None] when [fromstring] raises [ParseError]. *)
Variable fromstring : string → option (list Entry).

Definition _check_once (self : AtomStatusWatcher) (got : outcome Response)
  : AtomStatusWatcher * list Event * outcome bool :=
  let '(self, tr, xml_text) := _fetch_if_changed self got in
  match xml_text with
  | Raises e => (self, tr, Raises e)
  | Returns None => (self, tr, Returns false)
  | Returns (Some xml_text) =>
      match fromstring xml_text with
      | None => (self, tr, Raises ParseError)
      | Some entries =>
          let '(self, changed, evs) := for_entries (reverse entries) self false in
          (self, tr ++ evs, Returns changed)
      end
  end.

(** One turn of [while True], lines 65-72: [None] when the loop goes on
    to its next turn, [Some e] when [e] leaves the loop.  [Sleep n]
    records a call of [asyncio.sleep(n)].  The sleep of line 67 is inside
    the [try]: a cancellation it raises is re-raised, another exception
    goes to the handler.  The handler (lines 70-72) logs and sleeps
    again, and what that sleep raises leaves the loop, since line 72 is
    inside no [try].  Both sleeps are given the same interval; the
    handler's sleep follows the sleep of line 67 only when that one
    raised [OverflowError], and then raises it too, so that one outcome
    of the script per cycle is enough. *)
Definition cycle (self : AtomStatusWatcher) (t : Tick)
  : AtomStatusWatcher * list Event * option exn :=
  let '(self, tr, r) := _check_once self (got t) in
  let sleep := asyncio_sleep (poll_interval self) (slept t) in
  let handler exc tr :=
    (self, tr ++ [LogException exc; Sleep (poll_interval self)], sleep) in
  match r with
  | Returns changed =>
      match sleep with
      | None => (self, tr ++ [Sleep (poll_interval self)], None)
      | Some exc =>
          if is_Exception exc
          then handler exc (tr ++ [Sleep (poll_interval self)])
          else (self, tr ++ [Sleep (poll_interval self)], Some exc)
      end
  | Raises exc =>
      if is_Exception exc then handler exc tr else (self, tr, Some exc)
  end.

(** [run_forever] against a finite script of ticks: the loop is still
    [Running] when the script is used up, unless an exception left it. *)
Fixpoint run_forever (self : AtomStatusWatcher) (script : list Tick)
  : AtomStatusWatcher * list Event * loop_status :=
  match script with
  | [] => (self, [], Running)
  | t :: script' =>
      let '(self, tr, r) := cycle self t in
      match r with
      | Some e => (self, tr, Terminated e)
      | None =>
          let '(self, tr', st) := run_forever self script' in
          (self, tr ++ tr', st)
      end
  end.

End Watcher.

(** ** What the specification asks of the duplicate filter

    Written from the words of the specification, to be compared with the
    loop of [_check_once]: for each entry, in the order given, compute its
    identity key; if the key is in [seenKeys], skip the entry; otherwise
    add the key to [seenKeys] and include the entry in the output. *)
Fixpoint filterNew (entries : list Entry) (seenKeys : gset string)
  : list Entry * gset string :=
  match entries with
  | [] => ([], seenKeys)
  | e :: rest =>
      if decide (identity_key e ∈ seenKeys) then filterNew rest seenKeys
      else
        let '(out, seenKeys) := filterNew rest ({[ identity_key e ]} ∪ seenKeys) in
        (e :: out, seenKeys)
  end.

(** The entries of a trace for which a notification was printed. *)
Definition reported_entries (tr : list Event) : list Entry :=
  omap (λ ev, match ev with NewEntry e (Some _) => Some e | _ => None end) tr.

(** The waits of a trace. *)
Definition sleeps (tr : list Event) : list Z :=
  omap (λ ev, match ev with Sleep n => Some n | _ => None end) tr.

(** A tick in which no cancellation is requested. *)
Definition uncancelled (t : Tick) : Prop :=
  got t ≠ Raises CancelledError
  ∧ (∀ resp, got t = Returns resp → text resp ≠ Raises CancelledError)
  ∧ slept t = Woke.

(** A tick in which a cancellation is requested, during the request,
    the reading of the body or the wait. *)
Definition cancelled (t : Tick) : Prop :=
  got t = Raises CancelledError
  ∨ (∃ resp, got t = Returns resp ∧ text resp = Raises CancelledError)
  ∨ slept t = SleepCancelled.

(** *** Predicates on watchers and traces, for the statements below *)

(** What no step of a cycle touches but the fetch. *)
Definition same_validators (a b : AtomStatusWatcher) : Prop :=
  etag b = etag a ∧ last_modified b = last_modified a.

Definition same_settings (a b : AtomStatusWatcher) : Prop :=
  feed_url b = feed_url a ∧ poll_interval b = poll_interval a.

(** The keys of the entries a trace marks as new. *)
Definition keys_of (tr : list Event) : list string :=
  identity_key <$> new_entries tr.

(** The new entries of [tr] have distinct keys, none of them in [S],
    and [S'] is [S] with these keys. *)
Definition dedup_ok (S : gset string) (tr : list Event) (S' : gset string)
  : Prop :=
  NoDup (keys_of tr) ∧ (∀ k, k ∈ keys_of tr → k ∉ S)
  ∧ S' = S ∪ list_to_set (keys_of tr).

(** Two readings that the code does not follow, stated to be refuted:
    that a cycle adds a key only for an entry it printed a notification
    for, and that the fetch leaves the validators of the watcher alone. *)
Definition keys_only_for_reported : Prop :=
  ∀ (fromstring : string → option (list Entry)) self got,
    let '(self', tr, _) := _check_once fromstring self got in
    ∀ k, k ∈ seen_keys self' → k ∉ seen_keys self →
         ∃ e, e ∈ reported_entries tr ∧ identity_key e = k.

Definition fetch_keeps_validators : Prop :=
  ∀ self got,
    let '(self', _, _) := _fetch_if_changed self got in
    etag self' = etag self ∧ last_modified self' = last_modified self.


(** ** Sample data *)

Definition sample_A : Entry :=
  {| entry_id := "A"; updated := "t1"; title := "Chat Completions degraded";
     summary := "investigating"; content := "" |}.

Definition sample_A_edited : Entry :=
  {| entry_id := "A"; updated := "t4"; title := "Chat Completions degraded";
     summary := "resolved"; content := "" |}.

Definition sample_B : Entry :=
  {| entry_id := "B"; updated := "t2"; title := "Unrelated outage";
     summary := "details"; content := "" |}.

Definition sample_C : Entry :=
  {| entry_id := "C"; updated := "t3"; title := "Partial API issue";
     summary := ""; content := "" |}.

Definition sample_blank_1 : Entry :=
  {| entry_id := ""; updated := ""; title := "Embeddings API issue";
     summary := "ongoing"; content := "" |}.

Definition sample_blank_2 : Entry :=
  {| entry_id := ""; updated := ""; title := "Files API issue";
     summary := "ongoing"; content := "" |}.

Definition xml_A : string :=
  "<feed xmlns='http://www.w3.org/2005/Atom'><entry><id>A</id><updated>t1</updated><title>Chat Completions degraded</title><summary>investigating</summary></entry></feed>".

Definition xml_A_edited : string :=
  "<feed xmlns='http://www.w3.org/2005/Atom'><entry><id>A</id><updated>t4</updated><title>Chat Completions degraded</title><summary>resolved</summary></entry></feed>".

Definition xml_B : string :=
  "<feed xmlns='http://www.w3.org/2005/Atom'><entry><id>B</id><updated>t2</updated><title>Unrelated outage</title><summary>details</summary></entry></feed>".

Definition xml_BA : string :=
  "<feed xmlns='http://www.w3.org/2005/Atom'><entry><id>B</id><updated>t2</updated><title>Unrelated outage</title><summary>details</summary></entry><entry><id>A</id><updated>t1</updated><title>Chat Completions degraded</title><summary>investigating</summary></entry></feed>".

Definition xml_CA : string :=
  "<feed xmlns='http://www.w3.org/2005/Atom'><entry><id>C</id><updated>t3</updated><title>Partial API issue</title></entry><entry><id>A</id><updated>t1</updated><title>Chat Completions degraded</title><summary>investigating</summary></entry></feed>".

Definition xml_blanks : string :=
  "<feed xmlns='http://www.w3.org/2005/Atom'><entry><title>Files API issue</title><summary>ongoing</summary></entry><entry><title>Embeddings API issue</title><summary>ongoing</summary></entry></feed>".

Definition xml_broken : string := "<feed>".

(** The documents above and their entries, in document order. *)
Definition sample_documents : list (string * list Entry) :=
  [ (xml_A, [sample_A]);
    (xml_A_edited, [sample_A_edited]);
    (xml_B, [sample_B]);
    (xml_BA, [sample_B; sample_A]);
    (xml_CA, [sample_C; sample_A]);
    (xml_blanks, [sample_blank_2; sample_blank_1]) ].

(** An XML library that knows the sample documents and rejects every
    other text. *)
Fixpoint lookup_document (docs : list (string * list Entry)) (xml_text : string)
  : option (list Entry) :=
  match docs with
  | [] => None
  | (doc, entries) :: docs =>
      if decide (xml_text = doc) then Some entries
      else lookup_document docs xml_text
  end.

Definition sample_fromstring : string → option (list Entry) :=
  lookup_document sample_documents.

(** A successful answer carrying [xml_text] and the two validators. *)
Definition ok_response (xml_text : string) (tag modified : option string)
  : outcome Response :=
  Returns {| status := 200; ETag := tag; Last_Modified := modified;
             text := Returns xml_text |}.

Definition not_modified : outcome Response :=
  Returns {| status := 304; ETag := None; Last_Modified := None;
             text := Returns "" |}.

Definition watcher0 : AtomStatusWatcher := __init__ FEED_URL 60.


(** ** The entry point, and further notions for the statements below *)

(** [main], lines 138-146: a watcher on [FEED_URL] that polls every 60
    seconds, run forever.  The logging set-up writes nothing that the
    traces record. *)
Definition main (fromstring : string → option (list Entry)) (script : list Tick)
  : AtomStatusWatcher * list Event * loop_status :=
  let watcher := __init__ FEED_URL 60 in
  run_forever fromstring watcher script.

(** The requests of a trace: address and headers. *)
Definition requests (tr : list Event) : list (string * list (string * string)) :=
  omap (λ ev, match ev with Get url headers => Some (url, headers) | _ => None end) tr.

(** The exceptions a trace logs. *)
Definition logged (tr : list Event) : list exn :=
  omap (λ ev, match ev with LogException exc => Some exc | _ => None end) tr.

(** The labels the classifier can give. *)
Definition PRODUCT_LABELS : list string := "OpenAI API" :: PRODUCT_PATTERNS.*2.

(** [detect_product_and_message] over another table, to compare tables. *)
Definition detect_with (patterns : list (string * string)) (title body : string)
  : option string * option string :=
  let full_text := Text.lower (title +:+ " " +:+ body) in
  match scan_patterns full_text patterns with
  | Some product_label => (Some product_label, Some (message_of title body))
  | None =>
      if Text.str_in "api" full_text
      then (Some "OpenAI API", Some (message_of title body))
      else (None, None)
  end.

(** [PRODUCT_PATTERNS] without its rows for [embeddings api] and
    [openai api]. *)
Definition PRODUCT_PATTERNS_short : list (string * string) :=
  [ ("chat/completions", "OpenAI API - Chat Completions");
    ("chat completions", "OpenAI API - Chat Completions");
    ("responses api", "OpenAI API - Responses");
    ("assistants api", "OpenAI API - Assistants");
    ("realtime api", "OpenAI API - Realtime");
    ("files api", "OpenAI API - Files");
    ("file api", "OpenAI API - Files");
    ("embeddings", "OpenAI API - Embeddings");
    ("fine-tuning api", "OpenAI API - Fine-tuning");
    ("fine tuning api", "OpenAI API - Fine-tuning") ].

(** [s] holds a span the pattern [<[^>]+>] matches: a [<], a non-empty
    text without [>], and a [>]. *)
Definition has_tag (s : string) : Prop :=
  ∃ a t b, t ≠ "" ∧ ¬ Text.occurs ">" t ∧ s = a +:+ "<" +:+ t +:+ ">" +:+ b.

(** Every white-space character of [s] is a space that stands between two
    characters, the next of which is not white space. *)
Definition tidy_spaces (s : string) : Prop :=
  ∀ a c b, s = a +:+ String c b → Text.is_space c = true →
    c = " "%char ∧ a ≠ "" ∧ b ≠ "" ∧ Text.head_not_space b.

(** A text without tag, without [&nbsp;] and with tidy spaces. *)
Definition normal_text (s : string) : Prop :=
  ¬ has_tag s ∧ ¬ Text.occurs "&nbsp;" s ∧ tidy_spaces s.

(** * Properties *)

(** ** Strings and [re.sub] *)

Module TextFacts.
Import Text.

#[local] Arguments Ascii.eqb : simpl never.
#[local] Arguments is_space : simpl never.

Lemma app_cons c s t : String c s +:+ t = String c (s +:+ t).
Proof. reflexivity. Qed.

Lemma app_empty_r s : s +:+ "" = s.
Proof. induction s as [|c s IH]; [done|]. by rewrite app_cons, IH. Qed.

Lemma app_assoc s t u : (s +:+ t) +:+ u = s +:+ (t +:+ u).
Proof. induction s as [|c s IH]; [done|]. by rewrite !app_cons, IH. Qed.

Lemma suffix_of_length t s :
  suffix_of t s → (String.length t ≤ String.length s)%nat.
Proof. induction 1; simpl; lia. Qed.

Lemma suffix_of_trans t s u : suffix_of t s → suffix_of s u → suffix_of t u.
Proof. intros Hts Hsu. induction Hsu; [done|]. by constructor. Qed.

Lemma after_gt_suffix s rest : after_gt s = Some rest → suffix_of rest s.
Proof.
  induction s as [|c s IH]; simpl; [done|].
  destruct (Ascii.eqb c ">").
  - intros [= <-]. constructor. constructor.
  - intros H. constructor. auto.
Qed.

Lemma drop_prefix_suffix p s rest : drop_prefix p s = Some rest → suffix_of rest s.
Proof.
  revert s. induction p as [|a p IH]; intros [|b s]; simpl; try done.
  - intros [= <-]. constructor.
  - intros [= <-]. constructor.
  - destruct (Ascii.eqb a b); [|done]. intros H. constructor. eauto.
Qed.

Lemma lstrip_suffix s : suffix_of (lstrip s) s.
Proof.
  induction s as [|c s IH]; simpl; [constructor|].
  destruct (is_space c); by constructor.
Qed.

Lemma match_tag_cuts : cuts match_tag.
Proof.
  intros [|a [|c r]] rest; simpl; try done.
  destruct (Ascii.eqb a "<" && negb (Ascii.eqb c ">")); [|done].
  intros H. eexists _, _. split; [done|].
  constructor. by apply after_gt_suffix.
Qed.

Lemma match_nbsp_cuts : cuts match_nbsp.
Proof.
  intros [|b s] rest; unfold match_nbsp; simpl; [done|].
  destruct (Ascii.eqb "&" b); [|done]. intros H.
  eexists _, _. split; [done|]. exact (drop_prefix_suffix "nbsp;" _ _ H).
Qed.

Lemma match_ws_cuts : cuts match_ws.
Proof.
  intros [|c r] rest; simpl; [done|].
  destruct (is_space c); [|done]. intros [= <-].
  eexists _, _. split; [done|]. apply lstrip_suffix.
Qed.

Section ReSub.
Context (m : matcher) (repl : string) (Hm : cuts m).

Lemma re_sub_from_enough n k s :
  (String.length s ≤ n)%nat → (String.length s ≤ k)%nat →
  re_sub_from n m repl s = re_sub_from k m repl s.
Proof.
  revert k s. induction n as [|n IH]; intros [|k] [|c r]; simpl;
    try done; try lia.
  intros Hn Hk. destruct (m (String c r)) as [rest|] eqn:E.
  - apply Hm in E as (c' & r' & [= <- <-] & Hsuf).
    apply suffix_of_length in Hsuf. f_equal. apply IH; lia.
  - f_equal. apply IH; lia.
Qed.

(** The scan, without its counter. *)
Lemma re_sub_nil : re_sub m repl "" = "".
Proof. reflexivity. Qed.

Lemma re_sub_cons c r :
  re_sub m repl (String c r) =
    match m (String c r) with
    | Some rest => repl +:+ re_sub m repl rest
    | None => String c (re_sub m repl r)
    end.
Proof.
  unfold re_sub. simpl.
  destruct (m (String c r)) as [rest|] eqn:E; [|done].
  apply Hm in E as (c' & r' & [= <- <-] & Hsuf).
  apply suffix_of_length in Hsuf. f_equal.
  apply re_sub_from_enough; lia.
Qed.

(** Induction along the scan. *)
Lemma re_sub_ind (P : string → string → Prop) :
  P "" "" →
  (∀ c r rest, m (String c r) = Some rest → suffix_of rest r →
     P rest (re_sub m repl rest) →
     P (String c r) (repl +:+ re_sub m repl rest)) →
  (∀ c r, m (String c r) = None →
     P r (re_sub m repl r) →
     P (String c r) (String c (re_sub m repl r))) →
  ∀ s, P s (re_sub m repl s).
Proof.
  intros Hnil Hhit Hmiss s.
  remember (String.length s) as n eqn:Hn.
  revert s Hn. induction (lt_wf n) as [n _ IH]. intros [|c r] ->.
  - exact Hnil.
  - rewrite re_sub_cons. destruct (m (String c r)) as [rest|] eqn:E.
    + pose proof E as E'.
      apply Hm in E' as (c' & r' & [= <- <-] & Hsuf).
      apply Hhit; [done..|].
      apply (IH (String.length rest)); [|done].
      apply suffix_of_length in Hsuf. simpl. lia.
    + apply Hmiss; [done|]. apply (IH (String.length r)); [simpl; lia|done].
Qed.
End ReSub.

(** *** Texts a pattern does not match anywhere *)

Lemma unmatched_suffix m t s : suffix_of t s → unmatched m s → unmatched m t.
Proof. induction 1; [done|]. intros [_ H']. auto. Qed.

Lemma re_sub_from_unmatched m repl n s :
  unmatched m s → re_sub_from n m repl s = s.
Proof.
  revert n. induction s as [|c r IH]; intros [|n]; simpl; try done.
  intros [-> Hr]. by rewrite IH.
Qed.

Lemma re_sub_unmatched m repl s : unmatched m s → re_sub m repl s = s.
Proof. apply re_sub_from_unmatched. Qed.

(** Replacing the matches of [m'] by a space leaves nothing for [m] to
    match, when [m] matched nowhere [m'] did not, [m] does not match at
    a space and a failure of [m] at a copied character survives the
    rewriting of what follows it. *)
Section Transfer.
Context (m m' : matcher) (Hm' : cuts m').
Hypothesis Hspace : ∀ x, m (String " " x) = None.
Hypothesis Hback : ∀ c r,
  m (String c r) = None → m (String c (re_sub m' " " r)) = None.

Lemma covered_suffix t s : suffix_of t s → covered m m' s → covered m m' t.
Proof. induction 1; [done|]. intros [_ H']. auto. Qed.

Lemma unmatched_covered s : unmatched m s → covered m m' s.
Proof. induction s as [|c r IH]; [done|]. intros [H Hr]. split; auto. Qed.

Lemma re_sub_covered s : covered m m' s → unmatched m (re_sub m' " " s).
Proof.
  revert s. apply (re_sub_ind m' " " Hm' (λ s out, covered m m' s → unmatched m out)).
  - done.
  - intros c r rest E Hsuf IH [_ Hr]. split; [apply Hspace|].
    apply IH. by eapply covered_suffix.
  - intros c r E IH [Hc Hr]. split; [|auto].
    apply Hback. auto.
Qed.
End Transfer.

(** *** No [>] ahead *)

Lemma after_gt_none_suffix t s :
  suffix_of t s → after_gt s = None → after_gt t = None.
Proof.
  induction 1 as [|c s Hsuf IH]; [done|]. simpl.
  destruct (Ascii.eqb c ">"); [done|]. auto.
Qed.

Lemma after_gt_none_re_sub m' (Hm' : cuts m') s :
  after_gt s = None → after_gt (re_sub m' " " s) = None.
Proof.
  revert s. apply (re_sub_ind m' " " Hm'
    (λ s out, after_gt s = None → after_gt out = None)).
  - done.
  - intros c r rest E Hsuf IH H. simpl in H.
    destruct (Ascii.eqb c ">"); [done|].
    change (after_gt (re_sub m' " " rest) = None).
    apply IH. by eapply after_gt_none_suffix.
  - intros c r E IH. simpl. destruct (Ascii.eqb c ">"); [done|]. auto.
Qed.

Lemma match_tag_not_lt a x : Ascii.eqb a "<" = false → match_tag (String a x) = None.
Proof. intros H. destruct x; simpl; [done|]. by rewrite H. Qed.

Lemma match_tag_back m' (Hm' : cuts m') :
  (∀ x, m' (String ">" x) = None) →
  ∀ c r, match_tag (String c r) = None →
         match_tag (String c (re_sub m' " " r)) = None.
Proof.
  intros Hgt c r H.
  destruct (Ascii.eqb c "<") eqn:Ec; [|by apply match_tag_not_lt].
  destruct r as [|d r]; [done|].
  simpl in H. rewrite Ec in H. simpl in H.
  destruct (Ascii.eqb d ">") eqn:Ed.
  - apply Ascii.eqb_eq in Ed as ->.
    rewrite (re_sub_cons _ _ Hm'), Hgt. simpl. by rewrite Ec.
  - simpl in H. rewrite (re_sub_cons _ _ Hm').
    destruct (m' (String d r)) as [rest|] eqn:E.
    + apply Hm' in E as (? & ? & [= <- <-] & Hsuf).
      change (" " +:+ re_sub m' " " rest) with (String " " (re_sub m' " " rest)).
      simpl. rewrite Ec. simpl.
      apply after_gt_none_re_sub; [done|]. by eapply after_gt_none_suffix.
    + simpl. rewrite Ec, Ed. simpl. by apply after_gt_none_re_sub.
Qed.

(** *** A literal survives the rewriting only if it was there *)

Lemma drop_prefix_none_re_sub m' (Hm' : cuts m') p :
  plain m' p → ∀ s,
  drop_prefix p s = None → drop_prefix p (re_sub m' " " s) = None.
Proof.
  induction p as [|a p IH]; [done|].
  intros (Ha & Hno & Hp) [|b s]; [done|]. simpl.
  rewrite (re_sub_cons _ _ Hm').
  destruct (Ascii.eqb a b) eqn:Eab.
  - apply Ascii.eqb_eq in Eab as <-. rewrite Hno. simpl.
    rewrite Ascii.eqb_refl. auto.
  - intros _. destruct (m' (String b s)) as [rest|].
    + change (" " +:+ ?x) with (String " " x). simpl. by rewrite Ha.
    + simpl. by rewrite Eab.
Qed.

Lemma match_nbsp_back m' (Hm' : cuts m') :
  plain m' "nbsp;" →
  ∀ c r, match_nbsp (String c r) = None →
         match_nbsp (String c (re_sub m' " " r)) = None.
Proof.
  intros Hp c r. unfold match_nbsp.
  change (drop_prefix "&nbsp;" (String c ?x))
    with (if Ascii.eqb "&" c then drop_prefix "nbsp;" x else None).
  destruct (Ascii.eqb "&" c); [|done].
  by apply drop_prefix_none_re_sub.
Qed.

(** *** White space in normal form: single spaces only *)

Lemma lstrip_head s : head_not_space (lstrip s).
Proof.
  induction s as [|c s IH]; simpl; [done|].
  destruct (is_space c) eqn:E; [done|]. exact E.
Qed.

Lemma lstrip_id s : head_not_space s → lstrip s = s.
Proof. destruct s as [|c s]; simpl; [done|]. by intros ->. Qed.

Lemma re_sub_ws_head s :
  head_not_space s → head_not_space (re_sub match_ws " " s).
Proof.
  destruct s as [|c r]; [done|]. simpl. intros H.
  rewrite (re_sub_cons _ _ match_ws_cuts). simpl. by rewrite H.
Qed.

Lemma re_sub_ws_norm s : ws_norm (re_sub match_ws " " s).
Proof.
  revert s. apply (re_sub_ind match_ws " " match_ws_cuts (λ _ out, ws_norm out)).
  - done.
  - intros c r rest E _ IH. split; [|done]. intros _. split; [done|].
    simpl in E. destruct (is_space c); [|done]. injection E as <-.
    apply re_sub_ws_head, lstrip_head.
  - intros c r E IH. split; [|done]. simpl in E.
    destruct (is_space c); done.
Qed.

Lemma ws_norm_suffix t s : suffix_of t s → ws_norm s → ws_norm t.
Proof. induction 1; [done|]. intros [_ H']. auto. Qed.

Lemma re_sub_ws_fixed s : ws_norm s → re_sub match_ws " " s = s.
Proof.
  induction s as [|c r IH]; [done|]. intros [Hc Hr].
  rewrite (re_sub_cons _ _ match_ws_cuts). simpl.
  destruct (is_space c) eqn:E.
  - destruct Hc as [-> Hh]; [done|]. rewrite (lstrip_id _ Hh), IH; done.
  - by rewrite IH.
Qed.

(** *** [strip] keeps what the substitutions established *)

Lemma rstrip_prefix s : ∃ w, s = rstrip s +:+ w.
Proof.
  induction s as [|c s [w IH]]; [by exists ""|]. simpl.
  destruct (rstrip s) as [|d r'] eqn:E.
  - destruct (is_space c).
    + by exists (String c s).
    + exists w. rewrite app_cons. by f_equal.
  - exists w. rewrite app_cons. by f_equal.
Qed.

Lemma unmatched_app_l m (Hm : local_matcher m) a w :
  unmatched m (a +:+ w) → unmatched m a.
Proof.
  induction a as [|c a IH]; [done|]. rewrite app_cons.
  intros [H Ha]. split; [|auto]. apply (Hm _ w). by rewrite app_cons.
Qed.

Lemma after_gt_app_none r w : after_gt (r +:+ w) = None → after_gt r = None.
Proof.
  induction r as [|c r IH]; [done|]. rewrite app_cons. simpl.
  destruct (Ascii.eqb c ">"); [done|]. auto.
Qed.

Lemma match_tag_local : local_matcher match_tag.
Proof.
  intros [|a [|c r]] w; try done. rewrite !app_cons. simpl.
  destruct (Ascii.eqb a "<" && negb (Ascii.eqb c ">")); [|done].
  apply after_gt_app_none.
Qed.

Lemma drop_prefix_app_none p t w :
  drop_prefix p (t +:+ w) = None → drop_prefix p t = None.
Proof.
  revert t. induction p as [|a p IH]; intros [|b t]; try done.
  rewrite app_cons. simpl. destruct (Ascii.eqb a b); [|done]. auto.
Qed.

Lemma match_nbsp_local : local_matcher match_nbsp.
Proof. intros t w. apply drop_prefix_app_none. Qed.

Lemma unmatched_strip m (Hm : local_matcher m) s :
  unmatched m s → unmatched m (strip s).
Proof.
  intros H. unfold strip.
  destruct (rstrip_prefix (lstrip s)) as [w Hw].
  apply (unmatched_app_l m Hm _ w). rewrite <- Hw.
  eapply unmatched_suffix; [apply lstrip_suffix|done].
Qed.

Lemma head_not_space_app a w : head_not_space (a +:+ w) → head_not_space a.
Proof. by destruct a. Qed.

Lemma ws_norm_app_l a w : ws_norm (a +:+ w) → ws_norm a.
Proof.
  induction a as [|c a IH]; [done|]. rewrite app_cons.
  intros [Hc Ha]. split; [|auto].
  intros E. destruct (Hc E) as [-> Hh]. split; [done|].
  by eapply head_not_space_app.
Qed.

Lemma ws_norm_strip s : ws_norm s → ws_norm (strip s).
Proof.
  intros H. unfold strip.
  destruct (rstrip_prefix (lstrip s)) as [w Hw].
  apply (ws_norm_app_l _ w). rewrite <- Hw.
  eapply ws_norm_suffix; [apply lstrip_suffix|done].
Qed.

Lemma rstrip_cons c r :
  rstrip (String c r) =
    match rstrip r with
    | "" => if is_space c then "" else String c ""
    | r' => String c r'
    end.
Proof. reflexivity. Qed.

Lemma rstrip_idem s : rstrip (rstrip s) = rstrip s.
Proof.
  induction s as [|c s IH]; [done|]. rewrite (rstrip_cons c s).
  destruct (rstrip s) as [|d r'] eqn:E.
  - destruct (is_space c) eqn:Ec; [done|]. rewrite rstrip_cons. simpl.
    by rewrite Ec.
  - rewrite rstrip_cons, IH. done.
Qed.

Lemma rstrip_head s : head_not_space s → head_not_space (rstrip s).
Proof.
  destruct s as [|c s]; [done|]. simpl. intros H.
  destruct (rstrip s); [by rewrite H|done].
Qed.

Lemma strip_idem s : strip (strip s) = strip s.
Proof.
  unfold strip.
  rewrite (lstrip_id (rstrip (lstrip s))).
  - apply rstrip_idem.
  - apply rstrip_head, lstrip_head.
Qed.

(** *** The three substitutions, on a text already normalised *)

Lemma plain_nbsp_nbsp : plain match_nbsp "nbsp;".
Proof. repeat split. Qed.

Lemma plain_nbsp_ws : plain match_ws "nbsp;".
Proof. repeat split. Qed.

Lemma tag_free_1 s : unmatched match_tag (re_sub match_tag " " s).
Proof.
  apply (re_sub_covered match_tag match_tag match_tag_cuts).
  - intros x. by destruct x.
  - apply (match_tag_back _ match_tag_cuts). intros x. by destruct x.
  - induction s; simpl; auto.
Qed.

Lemma tag_free_2 s :
  unmatched match_tag s → unmatched match_tag (re_sub match_nbsp " " s).
Proof.
  intros H. apply (re_sub_covered match_tag match_nbsp match_nbsp_cuts).
  - intros x. by destruct x.
  - by apply (match_tag_back _ match_nbsp_cuts).
  - by apply unmatched_covered.
Qed.

Lemma tag_free_3 s :
  unmatched match_tag s → unmatched match_tag (re_sub match_ws " " s).
Proof.
  intros H. apply (re_sub_covered match_tag match_ws match_ws_cuts).
  - intros x. by destruct x.
  - by apply (match_tag_back _ match_ws_cuts).
  - by apply unmatched_covered.
Qed.

Lemma nbsp_free_2 s : unmatched match_nbsp (re_sub match_nbsp " " s).
Proof.
  apply (re_sub_covered match_nbsp match_nbsp match_nbsp_cuts).
  - done.
  - apply (match_nbsp_back _ match_nbsp_cuts), plain_nbsp_nbsp.
  - induction s; simpl; auto.
Qed.

Lemma nbsp_free_3 s :
  unmatched match_nbsp s → unmatched match_nbsp (re_sub match_ws " " s).
Proof.
  intros H. apply (re_sub_covered match_nbsp match_ws match_ws_cuts).
  - done.
  - apply (match_nbsp_back _ match_ws_cuts), plain_nbsp_ws.
  - by apply unmatched_covered.
Qed.

End TextFacts.

(** ** The normaliser *)

(** What [strip_html] returns has no tag, no [&nbsp;], single spaces only
    and no white space at its ends. *)
Lemma strip_html_normal text :
  Text.unmatched Text.match_tag (strip_html text)
  ∧ Text.unmatched Text.match_nbsp (strip_html text)
  ∧ Text.ws_norm (strip_html text)
  ∧ Text.strip (strip_html text) = strip_html text.
Proof.
  unfold strip_html. repeat split.
  - apply TextFacts.unmatched_strip; [apply TextFacts.match_tag_local|].
    apply TextFacts.tag_free_3, TextFacts.tag_free_2, TextFacts.tag_free_1.
  - apply TextFacts.unmatched_strip; [apply TextFacts.match_nbsp_local|].
    apply TextFacts.nbsp_free_3, TextFacts.nbsp_free_2.
  - apply TextFacts.ws_norm_strip, TextFacts.re_sub_ws_norm.
  - apply TextFacts.strip_idem.
Qed.

Lemma strip_html_fixed text :
  Text.unmatched Text.match_tag text →
  Text.unmatched Text.match_nbsp text →
  Text.ws_norm text →
  Text.strip text = text →
  strip_html text = text.
Proof.
  intros Ht Hn Hw Hs. unfold strip_html.
  rewrite (TextFacts.re_sub_unmatched _ _ _ Ht).
  rewrite (TextFacts.re_sub_unmatched _ _ _ Hn).
  by rewrite (TextFacts.re_sub_ws_fixed _ Hw).
Qed.

(** C9: the normaliser is idempotent, and it turns
    [<b>Hi</b>&nbsp;there] into [Hi there]. *)
Theorem strip_html_idempotent :
  (∀ x, strip_html (strip_html x) = strip_html x)
  ∧ strip_html "<b>Hi</b>&nbsp;there" = "Hi there".
Proof.
  split; [|reflexivity].
  intros x. destruct (strip_html_normal x) as (Ht & Hn & Hw & Hs).
  by apply strip_html_fixed.
Qed.

(** ** The classifier *)

Module ClassifierFacts.
Import Text TextFacts.

#[local] Arguments Ascii.eqb : simpl never.
#[local] Arguments is_space : simpl never.

Lemma starts_with_spec p s : starts_with p s = true ↔ ∃ b, s = p +:+ b.
Proof.
  revert s. induction p as [|a p IH]; intros s.
  - split; [intros _; by exists s|by destruct s].
  - destruct s as [|c s]; simpl.
    + split; [done|]. by intros [b H].
    + rewrite andb_true_iff, Ascii.eqb_eq, IH. split.
      * intros [-> [b ->]]. by exists b.
      * intros [b H]. rewrite app_cons in H. injection H as -> ->. eauto.
Qed.

Lemma str_in_spec needle hay : str_in needle hay = true ↔ occurs needle hay.
Proof.
  induction hay as [|c hay IH].
  - simpl. rewrite orb_false_r, starts_with_spec. split.
    + intros [b H]. by exists "", b.
    + intros ([|] & b & H); [by exists b|done].
  - change (str_in needle (String c hay))
      with (starts_with needle (String c hay) || str_in needle hay).
    rewrite orb_true_iff, starts_with_spec, IH. split.
    + intros [[b H]|(a & b & ->)]; [by exists "", b|].
      by exists (String c a), b.
    + intros ([|c' a] & b & H); [left; by exists b|right].
      rewrite app_cons in H. injection H as -> ->. by exists a, b.
Qed.

Lemma str_in_false needle hay : str_in needle hay = false ↔ ¬ occurs needle hay.
Proof. rewrite <- str_in_spec. by destruct (str_in needle hay). Qed.

Lemma lower_app s t : lower (s +:+ t) = lower s +:+ lower t.
Proof. induction s as [|c s IH]; [done|]. rewrite app_cons. simpl. by rewrite IH. Qed.

Lemma lower_split t x y :
  lower t = x +:+ y → ∃ a b, t = a +:+ b ∧ lower a = x ∧ lower b = y.
Proof.
  revert t. induction x as [|c x IH]; intros t H.
  - by exists "", t.
  - destruct t as [|d t]; [done|]. rewrite app_cons in H. simpl in H.
    injection H as Hc H. destruct (IH _ H) as (a & b & -> & Ha & Hb).
    exists (String d a), b. simpl. by rewrite Hc, Ha.
Qed.

(** Looking for a lower-case needle in the lowered text is looking for
    the needle in the text, whatever the case of its letters. *)
Lemma occurs_lower needle text :
  lower needle = needle →
  occurs needle (lower text) ↔ occurs_ci needle text.
Proof.
  intros Hn. split.
  - intros (a' & b' & H).
    apply lower_split in H as (a & t & -> & Ha & H).
    apply lower_split in H as (u & b & -> & Hu & Hb).
    exists a, u, b. by rewrite Hn.
  - intros (a & u & b & -> & Hu). exists (lower a), (lower b).
    by rewrite !lower_app, Hu, Hn.
Qed.

(** The scan returns the label of the first pair whose needle occurs. *)
Lemma scan_patterns_first hay ps i needle label :
  ps !! i = Some (needle, label) →
  occurs needle hay →
  (∀ j n' l', (j < i)%nat → ps !! j = Some (n', l') → ¬ occurs n' hay) →
  scan_patterns hay ps = Some label.
Proof.
  revert i. induction ps as [|[n l] ps IH]; intros i Hi Hocc Hfirst; [done|].
  simpl. destruct i as [|i].
  - injection Hi as -> ->. apply str_in_spec in Hocc. by rewrite Hocc.
  - assert (str_in n hay = false) as ->.
    { apply str_in_false. apply (Hfirst 0%nat n l); [lia|done]. }
    apply (IH i); [done..|].
    intros j n' l' Hj. apply (Hfirst (S j)). lia.
Qed.

Lemma scan_patterns_none hay ps :
  (∀ needle label, (needle, label) ∈ ps → ¬ occurs needle hay) →
  scan_patterns hay ps = None.
Proof.
  induction ps as [|[n l] ps IH]; intros H; [done|]. simpl.
  assert (str_in n hay = false) as ->.
  { apply str_in_false, (H n l). by left. }
  apply IH. intros needle label Hin. apply (H needle label). by right.
Qed.

(** The needles are in lower case already. *)
Lemma needles_lower :
  Forall (λ p, lower p.1 = p.1) PRODUCT_PATTERNS ∧ lower "api" = "api".
Proof. split; [|done]. repeat constructor. Qed.

(** *** A label never comes with an empty message *)

Lemma rstrip_empty s : rstrip s = "" → all_space s.
Proof.
  induction s as [|c s IH]; [done|]. rewrite rstrip_cons.
  destruct (rstrip s); [|done]. destruct (is_space c) eqn:E; [|done].
  intros _. split; auto.
Qed.

Lemma lstrip_all_space s : all_space (lstrip s) → all_space s.
Proof.
  induction s as [|c s IH]; [done|]. simpl lstrip.
  destruct (is_space c) eqn:E; [|done]. intros H. split; auto.
Qed.

Lemma strip_empty s : strip s = "" → all_space s.
Proof. intros H. by apply lstrip_all_space, rstrip_empty. Qed.

Lemma lower_char_space c : is_space (lower_char c) = is_space c.
Proof. by destruct c as [[] [] [] [] [] [] [] []]. Qed.

Lemma all_space_lower s : all_space s → all_space (lower s).
Proof.
  induction s as [|c s IH]; [done|]. intros [Hc Hs]. simpl.
  rewrite lower_char_space. auto.
Qed.

Lemma all_space_app s t : all_space s → all_space t → all_space (s +:+ t).
Proof.
  induction s as [|c s IH]; [done|]. intros [Hc Hs] Ht.
  rewrite app_cons. split; auto.
Qed.

Lemma str_in_all_space needle hay :
  head_plain needle → all_space hay → str_in needle hay = false.
Proof.
  destruct needle as [|a n]; [done|]. simpl. intros Ha.
  induction hay as [|c hay IH]; [done|]. intros [Hc Hhay].
  change (str_in (String a n) (String c hay))
    with (Ascii.eqb a c && starts_with n hay || str_in (String a n) hay).
  rewrite IH by done. rewrite orb_false_r.
  destruct (Ascii.eqb a c) eqn:E; [|done].
  apply Ascii.eqb_eq in E as ->. congruence.
Qed.

Lemma needles_head_plain :
  Forall (λ p, head_plain p.1) PRODUCT_PATTERNS ∧ head_plain "api".
Proof. split; [|done]. repeat constructor. Qed.

Lemma scan_patterns_all_space hay ps :
  Forall (λ p, head_plain p.1) ps → all_space hay →
  scan_patterns hay ps = None.
Proof.
  intros Hps Hhay. induction Hps as [|[n l] ps Hn Hps IH]; [done|].
  simpl. by rewrite str_in_all_space.
Qed.

(** When the classifier names a product, the message it gives with it
    is not empty: a blank title and a blank body hold no needle. *)
Lemma detect_message_nonempty title body label message :
  detect_product_and_message title body = (Some label, Some message) →
  message ≠ "".
Proof.
  intros H ->.
  assert (message_of title body = "") as Hm.
  { unfold detect_product_and_message in H.
    destruct (scan_patterns _ _); [by injection H|].
    destruct (str_in _ _); [by injection H|done]. }
  unfold message_of, str_or in Hm.
  destruct (strip body) eqn:Hb; [|done]. simpl in Hm.
  apply strip_empty in Hb, Hm.
  assert (all_space (lower (title +:+ " " +:+ body))) as Hall.
  { apply all_space_lower, all_space_app; [done|]. by split. }
  destruct needles_head_plain as [Htab Hapi].
  unfold detect_product_and_message in H.
  rewrite (scan_patterns_all_space _ _ Htab Hall) in H.
  by rewrite (str_in_all_space _ _ Hapi Hall) in H.
Qed.

End ClassifierFacts.

(** C2: the classifier lowers [title], a space and [body] into the
    haystack; it returns the label of the first pair of the table whose
    needle occurs in the haystack, the generic label when none does but
    [api] occurs, and nothing otherwise; with a label comes the message,
    the trimmed body when that is not empty and the trimmed title
    otherwise.  Occurring in the haystack is occurring in title, space and
    body up to the case of letters. *)
Theorem detect_product_and_message_spec (title body : string) :
  let haystack := Text.lower (title +:+ " " +:+ body) in
  let message :=
    if decide (Text.strip body = "") then Text.strip title else Text.strip body in
  (∀ i needle label,
      PRODUCT_PATTERNS !! i = Some (needle, label) →
      Text.occurs needle haystack →
      (∀ j n' l', (j < i)%nat → PRODUCT_PATTERNS !! j = Some (n', l') →
                  ¬ Text.occurs n' haystack) →
      detect_product_and_message title body = (Some label, Some message))
  ∧ ((∀ needle label, (needle, label) ∈ PRODUCT_PATTERNS →
                      ¬ Text.occurs needle haystack) →
     Text.occurs "api" haystack →
     detect_product_and_message title body = (Some "OpenAI API", Some message))
  ∧ ((∀ needle label, (needle, label) ∈ PRODUCT_PATTERNS →
                      ¬ Text.occurs needle haystack) →
     ¬ Text.occurs "api" haystack →
     detect_product_and_message title body = (None, None))
  ∧ (∀ needle, needle = "api" ∨ needle ∈ PRODUCT_PATTERNS.*1 →
       Text.occurs needle haystack
       ↔ Text.occurs_ci needle (title +:+ " " +:+ body)).
Proof.
  intros haystack message.
  assert (message_of title body = message) as Hmsg.
  { unfold message_of, message, Text.str_or.
    destruct (decide (Text.strip body = "")) as [->|Hne]; [done|].
    by destruct (Text.strip body). }
  unfold detect_product_and_message. fold haystack. rewrite Hmsg.
  split; [|split; [|split]].
  - intros i needle label Hi Hocc Hfirst.
    by rewrite (ClassifierFacts.scan_patterns_first _ _ _ _ _ Hi Hocc Hfirst).
  - intros Hnone Hapi. rewrite (ClassifierFacts.scan_patterns_none _ _ Hnone).
    apply ClassifierFacts.str_in_spec in Hapi. by rewrite Hapi.
  - intros Hnone Hapi. rewrite (ClassifierFacts.scan_patterns_none _ _ Hnone).
    apply ClassifierFacts.str_in_false in Hapi. by rewrite Hapi.
  - intros needle Hn. apply ClassifierFacts.occurs_lower.
    destruct ClassifierFacts.needles_lower as [Htab Hapi].
    destruct Hn as [->|Hn]; [done|].
    apply list_elem_of_fmap in Hn as ([n l] & -> & Hin).
    rewrite Forall_forall in Htab. by apply (Htab (n, l)).
Qed.

Lemma detect_product_and_message_witness :
  detect_product_and_message "Chat Completions degraded" "investigating"
  = (Some "OpenAI API - Chat Completions", Some "investigating").
Proof.
  apply (proj1 (detect_product_and_message_spec
                  "Chat Completions degraded" "investigating")
           1%nat "chat completions").
  - reflexivity.
  - by exists "", " degraded investigating".
  - intros j n' l' Hj Hlk. destruct j; [|lia]. injection Hlk as <- <-.
    by apply ClassifierFacts.str_in_false.
Defined.

(** ** The watcher *)

Module WatcherFacts.

(** The two branches of the loop test the same key. *)
Lemma loop_body_key self e :
  loop_body self e =
    if decide (identity_key e ∈ seen_keys self) then None
    else Some (add_key self (identity_key e), NewEntry e (classify_entry e)).
Proof. unfold loop_body, identity_key. by destruct (_ || _). Qed.

Lemma identity_key_empty e :
  identity_key e = "" ↔ entry_id e = "" ∧ updated e = "".
Proof.
  unfold identity_key, Text.str_or.
  destruct (entry_id e) as [|a i], (updated e) as [|b u]; simpl;
    (split; [|intros []]; done).
Qed.

Lemma identity_key_full e :
  entry_id e ≠ "" → updated e ≠ "" →
  identity_key e = entry_id e +:+ "|" +:+ updated e.
Proof.
  unfold identity_key. by destruct (entry_id e), (updated e).
Qed.

Lemma fetch_frame self got self' tr r :
  _fetch_if_changed self got = (self', tr, r) →
  seen_keys self' = seen_keys self ∧ same_settings self self'
  ∧ tr = [Get (feed_url self) (request_headers self)].
Proof.
  unfold _fetch_if_changed, same_settings.
  destruct got as [resp|e]; [|by intros [= <- <- <-]].
  destruct (status resp =? 304); [by intros [= <- <- <-]|].
  destruct (400 <=? status resp); [by intros [= <- <- <-]|].
  destruct (text resp); by intros [= <- <- <-].
Qed.

Lemma new_entries_app tr1 tr2 :
  new_entries (tr1 ++ tr2) = new_entries tr1 ++ new_entries tr2.
Proof. apply omap_app. Qed.

Lemma new_entries_marks (es : list Entry) :
  new_entries ((λ e, NewEntry e (classify_entry e)) <$> es) = es.
Proof. induction es as [|e es IH]; [done|]. simpl. f_equal. exact IH. Qed.

(** The loop is the filter of the specification. *)
Lemma for_entries_filterNew es self changed self' changed' evs :
  for_entries es self changed = (self', changed', evs) →
  evs = (λ e, NewEntry e (classify_entry e)) <$> (filterNew es (seen_keys self)).1
  ∧ seen_keys self' = (filterNew es (seen_keys self)).2
  ∧ same_validators self self' ∧ same_settings self self'
  ∧ changed' = changed || bool_decide (evs ≠ []).
Proof.
  revert self changed self' changed' evs.
  induction es as [|e es IH]; intros self changed self' changed' evs; simpl.
  - intros [= <- <- <-]. by rewrite orb_false_r.
  - rewrite loop_body_key.
    destruct (decide (identity_key e ∈ seen_keys self)) as [Hin|Hin].
    + apply IH.
    + destruct (for_entries es (add_key self (identity_key e)) true)
        as [[s c] ev] eqn:E.
      intros [= <- <- <-].
      apply IH in E as (-> & Hs & [? ?] & [? ?] & ->). simpl in *.
      destruct (filterNew es ({[identity_key e]} ∪ seen_keys self)) as [out S'].
      simpl in *. repeat split; try done.
      by rewrite orb_true_r.
Qed.

Lemma filterNew_spec es S out S' :
  filterNew es S = (out, S') →
  S' = S ∪ list_to_set (identity_key <$> out)
  ∧ S' = S ∪ list_to_set (identity_key <$> es)
  ∧ NoDup (identity_key <$> out)
  ∧ (∀ e, e ∈ out → identity_key e ∉ S)
  ∧ sublist out es.
Proof.
  revert S out S'. induction es as [|e es IH]; intros S out S'; simpl.
  - intros [= <- <-]. repeat split; [set_solver..|constructor|set_solver|done].
  - destruct (decide (identity_key e ∈ S)) as [Hin|Hin].
    + intros H. apply IH in H as (H1 & H2 & H3 & H4 & H5).
      repeat split; [done|set_solver|done..|by apply sublist_cons].
    + destruct (filterNew es ({[identity_key e]} ∪ S)) as [out' S''] eqn:E.
      intros [= <- <-].
      apply IH in E as (H1 & H2 & H3 & H4 & H5).
      repeat split.
      * rewrite H1. set_solver.
      * rewrite H2. set_solver.
      * rewrite fmap_cons. constructor; [|done].
        intros (e' & He' & Hin')%list_elem_of_fmap.
        apply H4 in Hin'. set_solver.
      * intros e' [->|He']%elem_of_cons; [done|].
        apply H4 in He'. set_solver.
      * by apply sublist_skip.
Qed.

(** *** Keys along a trace *)

Lemma keys_of_app tr1 tr2 : keys_of (tr1 ++ tr2) = keys_of tr1 ++ keys_of tr2.
Proof. unfold keys_of. by rewrite new_entries_app, fmap_app. Qed.

Lemma dedup_ok_quiet S tr : new_entries tr = [] → dedup_ok S tr S.
Proof.
  intros H. unfold dedup_ok, keys_of. rewrite H. simpl.
  repeat split; [constructor|set_solver..].
Qed.

Lemma dedup_ok_app S tr1 S1 tr2 S2 :
  dedup_ok S tr1 S1 → dedup_ok S1 tr2 S2 → dedup_ok S (tr1 ++ tr2) S2.
Proof.
  intros (N1 & F1 & ->) (N2 & F2 & ->). unfold dedup_ok.
  rewrite keys_of_app. repeat split.
  - apply NoDup_app. repeat split; [done| |done].
    intros k Hk1 Hk2. apply F2 in Hk2. set_solver.
  - intros k [Hk|Hk]%elem_of_app; [by apply F1|].
    apply F2 in Hk. set_solver.
  - set_solver.
Qed.

Lemma for_entries_dedup es self changed self' changed' evs :
  for_entries es self changed = (self', changed', evs) →
  dedup_ok (seen_keys self) evs (seen_keys self').
Proof.
  intros (-> & Hs & _)%for_entries_filterNew.
  destruct (filterNew es (seen_keys self)) as [out S'] eqn:E.
  apply filterNew_spec in E as (H1 & _ & H3 & H4 & _). cbn [fst snd] in *.
  unfold dedup_ok, keys_of. rewrite new_entries_marks.
  repeat split; [done| |by rewrite Hs].
  intros k (e & -> & He)%list_elem_of_fmap. by apply H4.
Qed.

Section WithParser.
Context (fromstring : string → option (list Entry)).

Lemma check_once_dedup self got self' tr r :
  _check_once fromstring self got = (self', tr, r) →
  dedup_ok (seen_keys self) tr (seen_keys self')
  ∧ same_settings self self'.
Proof.
  unfold _check_once.
  destruct (_fetch_if_changed self got) as [[s1 tr1] r1] eqn:F.
  apply fetch_frame in F as (Hs & Hset & ->).
  destruct r1 as [[xml|]|e].
  - destruct (fromstring xml) as [entries|].
    + destruct (for_entries (reverse entries) s1 false) as [[s2 c] evs] eqn:E.
      intros [= <- <- <-].
      pose proof (for_entries_filterNew _ _ _ _ _ _ E) as (_ & _ & _ & Hset2 & _).
      apply for_entries_dedup in E. rewrite Hs in E. split.
      * by apply (dedup_ok_app _ [Get _ _] (seen_keys self) evs);
          [apply dedup_ok_quiet|].
      * destruct Hset, Hset2. split; congruence.
    + intros [= <- <- <-]. rewrite Hs. split; [by apply dedup_ok_quiet|done].
  - intros [= <- <- <-]. rewrite Hs. split; [by apply dedup_ok_quiet|done].
  - intros [= <- <- <-]. rewrite Hs. split; [by apply dedup_ok_quiet|done].
Qed.

(** A cycle that raises has found no new entry and added no key. *)
Lemma check_once_raises self got self' tr e :
  _check_once fromstring self got = (self', tr, Raises e) →
  seen_keys self' = seen_keys self ∧ new_entries tr = [].
Proof.
  unfold _check_once.
  destruct (_fetch_if_changed self got) as [[s1 tr1] r1] eqn:F.
  apply fetch_frame in F as (Hs & Hset & ->).
  destruct r1 as [[xml|]|e1]; [|done|by intros [= <- <- <-]].
  destruct (fromstring xml) as [entries|]; [|by intros [= <- <- <-]].
  by destruct (for_entries (reverse entries) s1 false) as [[s2 c] evs].
Qed.

Lemma cycle_dedup self t self' tr r :
  cycle fromstring self t = (self', tr, r) →
  dedup_ok (seen_keys self) tr (seen_keys self')
  ∧ same_settings self self'.
Proof.
  unfold cycle.
  destruct (_check_once fromstring self (got t)) as [[s1 tr1] r1] eqn:C.
  apply check_once_dedup in C as [D Hset].
  destruct r1 as [changed|exc];
    [destruct (asyncio_sleep _ _) as [e|]; [destruct (is_Exception e)|]
    |destruct (is_Exception exc)];
    intros [= <- <- <-]; (split; [|done]); try done;
    rewrite <- ?app_assoc;
    (eapply dedup_ok_app; [done|by apply dedup_ok_quiet]).
Qed.

Lemma run_forever_dedup script self self' tr st :
  run_forever fromstring self script = (self', tr, st) →
  dedup_ok (seen_keys self) tr (seen_keys self')
  ∧ same_settings self self'.
Proof.
  revert self self' tr st.
  induction script as [|t script IH]; intros self self' tr st; simpl.
  - intros [= <- <- <-]. split; [by apply dedup_ok_quiet|done].
  - destruct (cycle fromstring self t) as [[s1 tr1] r1] eqn:C.
    apply cycle_dedup in C as [D Hset].
    destruct r1 as [e|]; [by intros [= <- <- <-]|].
    destruct (run_forever fromstring s1 script) as [[s2 tr2] st2] eqn:R.
    intros [= <- <- <-]. apply IH in R as [D2 Hset2]. split.
    + by eapply dedup_ok_app.
    + destruct Hset, Hset2. split; congruence.
Qed.
End WithParser.

End WatcherFacts.

Module CycleFacts.
Import WatcherFacts.

Lemma printed_events_marks (es : list Entry) :
  printed_events ((λ e, NewEntry e (classify_entry e)) <$> es)
  = omap classify_entry es.
Proof.
  induction es as [|e es IH]; [done|]. simpl.
  destruct (classify_entry e); simpl; f_equal; exact IH.
Qed.

Lemma sleeps_marks (es : list Entry) :
  sleeps ((λ e, NewEntry e (classify_entry e)) <$> es) = [].
Proof. induction es as [|e es IH]; [done|]. exact IH. Qed.

Lemma sleeps_app tr1 tr2 : sleeps (tr1 ++ tr2) = sleeps tr1 ++ sleeps tr2.
Proof. apply omap_app. Qed.

(** No key twice among the entries: at most one entry under a key. *)
Lemma filter_key_absent k (l : list Entry) :
  k ∉ identity_key <$> l → filter (λ e, identity_key e = k) l = [].
Proof.
  induction l as [|e l IH]; [done|]. rewrite fmap_cons, not_elem_of_cons.
  intros [Hk Hl]. rewrite filter_cons.
  destruct (decide (identity_key e = k)); [done|]. auto.
Qed.

Lemma filter_key_once k (l : list Entry) :
  NoDup (identity_key <$> l) →
  (length (filter (λ e, identity_key e = k) l) ≤ 1)%nat.
Proof.
  induction l as [|e l IH]; [simpl; lia|].
  rewrite fmap_cons, NoDup_cons. intros [Hk Hl]. rewrite filter_cons.
  destruct (decide (identity_key e = k)) as [<-|]; [|auto].
  rewrite filter_key_absent; [simpl; lia|done].
Qed.

(** What is reported was new. *)
Lemma reported_among_new k tr :
  (length (filter (λ e, identity_key e = k) (reported_entries tr))
   ≤ length (filter (λ e, identity_key e = k) (new_entries tr)))%nat.
Proof.
  induction tr as [|ev tr IH]; [done|].
  destruct ev as [| e [p|] | |]; try exact IH.
  - change (reported_entries (NewEntry e (Some p) :: tr))
      with (e :: reported_entries tr).
    change (new_entries (NewEntry e (Some p) :: tr)) with (e :: new_entries tr).
    rewrite !filter_cons. destruct (decide _); simpl; lia.
  - change (reported_entries (NewEntry e None :: tr)) with (reported_entries tr).
    change (new_entries (NewEntry e None :: tr)) with (e :: new_entries tr).
    rewrite filter_cons. destruct (decide _); simpl; lia.
Qed.

Section WithParser.
Context (fromstring : string → option (list Entry)).

(** A cycle whose fetch returned a document the library accepts. *)
Lemma check_once_document self got self1 tr1 xml entries :
  _fetch_if_changed self got = (self1, tr1, Returns (Some xml)) →
  fromstring xml = Some entries →
  ∃ self' evs,
    _check_once fromstring self got
    = (self', tr1 ++ evs, Returns (bool_decide (evs ≠ [])))
    ∧ evs = (λ e, NewEntry e (classify_entry e))
              <$> (filterNew (reverse entries) (seen_keys self)).1
    ∧ seen_keys self' = (filterNew (reverse entries) (seen_keys self)).2
    ∧ same_validators self1 self'.
Proof.
  intros F P. unfold _check_once. rewrite F, P.
  apply fetch_frame in F as (Hs & _ & _).
  destruct (for_entries (reverse entries) self1 false) as [[s2 c] evs] eqn:E.
  apply for_entries_filterNew in E as (Hevs & Hseen & Hval & _ & ->).
  rewrite Hs in Hevs, Hseen. by exists s2, evs.
Qed.

Lemma check_once_sleeps self got self' tr r :
  _check_once fromstring self got = (self', tr, r) → sleeps tr = [].
Proof.
  unfold _check_once.
  destruct (_fetch_if_changed self got) as [[s1 tr1] r1] eqn:F.
  apply fetch_frame in F as (_ & _ & ->).
  destruct r1 as [[xml|]|e]; [|by intros [= <- <- <-]..].
  destruct (fromstring xml) as [entries|]; [|by intros [= <- <- <-]].
  destruct (for_entries (reverse entries) s1 false) as [[s2 c] evs] eqn:E.
  apply for_entries_filterNew in E as (-> & _).
  intros [= <- <- <-]. apply sleeps_marks.
Qed.

(** A cancellation comes out of a cycle only if one was requested
    during the request or the reading of the body. *)
Lemma check_once_cancelled self got self' tr :
  _check_once fromstring self got = (self', tr, Raises CancelledError) →
  got = Raises CancelledError
  ∨ ∃ resp, got = Returns resp ∧ text resp = Raises CancelledError.
Proof.
  unfold _check_once, _fetch_if_changed.
  destruct got as [resp|e]; [|intros [= <- <- <-]; by left].
  destruct (status resp =? 304); [done|].
  destruct (400 <=? status resp); [done|].
  destruct (text resp) as [body|e] eqn:T.
  - destruct (fromstring body); [|done].
    by destruct (for_entries _ _ _) as [[? ?] ?].
  - intros [= <- <- <-]. right. by exists resp.
Qed.

(** The three ways a sleep can go. *)
Lemma asyncio_sleep_cases delay t :
  (asyncio_sleep delay (slept t) = None ∧ delay < SLEEP_OVERFLOW
   ∧ slept t = Woke)
  ∨ (asyncio_sleep delay (slept t) = Some CancelledError ∧ cancelled t)
  ∨ (asyncio_sleep delay (slept t) = Some OverflowError
     ∧ SLEEP_OVERFLOW ≤ delay).
Proof.
  unfold asyncio_sleep, cancelled.
  destruct (Z.leb_spec SLEEP_OVERFLOW delay); [by right; right|].
  destruct (slept t); [left|right; left]; auto.
Qed.

(** A turn of the loop goes on to the next one after one sleep, or is
    left by a cancellation that was requested, or by the [OverflowError]
    of a sleep whose interval does not fit a float. *)
Lemma cycle_outcome self t self' tr r :
  cycle fromstring self t = (self', tr, r) →
  (r = None ∧ sleeps tr = [poll_interval self]
   ∧ poll_interval self < SLEEP_OVERFLOW)
  ∨ (r = Some CancelledError ∧ cancelled t)
  ∨ (r = Some OverflowError ∧ SLEEP_OVERFLOW ≤ poll_interval self).
Proof.
  unfold cycle.
  destruct (_check_once fromstring self (got t)) as [[s1 tr1] r1] eqn:C.
  pose proof (check_once_sleeps _ _ _ _ _ C) as Hsl.
  pose proof (check_once_dedup _ _ _ _ _ _ C) as [_ [_ Hpoll]].
  rewrite Hpoll.
  destruct r1 as [changed|exc]; [|destruct (is_Exception exc) eqn:Ex].
  - destruct (asyncio_sleep_cases (poll_interval self) t)
      as [(-> & ? & _)|[[-> ?]|[-> ?]]]; simpl; intros [= <- <- <-].
    + left. by rewrite sleeps_app, Hsl.
    + right. by left.
    + right. by right.
  - destruct (asyncio_sleep_cases (poll_interval self) t)
      as [(-> & ? & _)|[[-> ?]|[-> ?]]]; simpl; intros [= <- <- <-].
    + left. by rewrite sleeps_app, Hsl.
    + right. by left.
    + right. by right.
  - intros [= <- <- <-]. destruct exc; try done.
    right. left. split; [done|].
    apply check_once_cancelled in C as [?|?]; unfold cancelled; eauto.
Qed.

Lemma uncancelled_not_cancelled t : uncancelled t → ¬ cancelled t.
Proof.
  intros (H1 & H2 & H3) [?|[(resp & Hg & Ht)|?]]; [done| |congruence].
  by apply (H2 resp).
Qed.

Lemma run_forever_uncancelled script self self' tr st :
  poll_interval self < SLEEP_OVERFLOW →
  Forall uncancelled script →
  run_forever fromstring self script = (self', tr, st) →
  st = Running ∧ sleeps tr = replicate (length script) (poll_interval self).
Proof.
  intros Hrange Hall. revert self Hrange self' tr st.
  induction Hall as [|t script Ht Hall IH];
    intros self Hrange self' tr st; simpl.
  - by intros [= <- <- <-].
  - destruct (cycle fromstring self t) as [[s1 tr1] r1] eqn:C.
    pose proof (cycle_dedup _ _ _ _ _ _ C) as [_ [_ Hpoll]].
    apply cycle_outcome in C as [(-> & Hsl & _)|[[_ Hc]|[_ ?]]];
      [|by apply uncancelled_not_cancelled in Hc|lia].
    destruct (run_forever fromstring s1 script) as [[s2 tr2] st2] eqn:R.
    intros [= <- <- <-]. apply IH in R as [-> Hsl2]; [|lia].
    split; [done|]. by rewrite sleeps_app, Hsl, Hsl2, Hpoll.
Qed.

Lemma run_forever_terminated script self self' tr e :
  run_forever fromstring self script = (self', tr, Terminated e) →
  (e = CancelledError ∧ Exists cancelled script)
  ∨ (e = OverflowError ∧ SLEEP_OVERFLOW ≤ poll_interval self).
Proof.
  revert self self' tr.
  induction script as [|t script IH]; intros self self' tr; simpl; [done|].
  destruct (cycle fromstring self t) as [[s1 tr1] r1] eqn:C.
  pose proof (cycle_dedup _ _ _ _ _ _ C) as [_ [_ Hpoll]].
  apply cycle_outcome in C as [(-> & _)|[[-> Hc]|[-> ?]]].
  - destruct (run_forever fromstring s1 script) as [[s2 tr2] st2] eqn:R.
    intros [= <- <- ->]. apply IH in R as [[-> Hex]|[-> ?]].
    + left. split; [done|]. by apply Exists_cons_tl.
    + right. split; [done|lia].
  - intros [= <- <- <-]. left. split; [done|]. by apply Exists_cons_hd.
  - intros [= <- <- <-]. by right.
Qed.
End WithParser.

End CycleFacts.

(** ** Properties of the poll cycle and the poll loop *)

(** C1: along any run of the poll loop, at most one entry whose identity
    key is the empty string (an entry with neither id nor update time)
    is taken as new, hence at most one is reported: the first one passes
    the duplicate test and puts the empty key in [seen_keys]; from then on
    every such entry is skipped without a trace. *)
Theorem empty_key_reported_once (fromstring : string → option (list Entry))
  (self : AtomStatusWatcher) (script : list Tick) :
  (∀ e, identity_key e = "" ↔ entry_id e = "" ∧ updated e = "")
  ∧ (∀ st e, identity_key e = "" → "" ∉ seen_keys st →
       loop_body st e = Some (add_key st "", NewEntry e (classify_entry e))
       ∧ "" ∈ seen_keys (add_key st ""))
  ∧ (∀ st e, identity_key e = "" → "" ∈ seen_keys st → loop_body st e = None)
  ∧ (let '(self', tr, _) := run_forever fromstring self script in
     (length (filter (λ e, identity_key e = "") (new_entries tr)) ≤ 1)%nat
     ∧ (length (filter (λ e, identity_key e = "") (reported_entries tr)) ≤ 1)%nat
     ∧ ("" ∈ seen_keys self →
        filter (λ e, identity_key e = "") (new_entries tr) = [])
     ∧ (filter (λ e, identity_key e = "") (new_entries tr) ≠ [] →
        "" ∈ seen_keys self')).
Proof.
  split; [apply WatcherFacts.identity_key_empty|].
  split; [|split].
  - intros st e He Hfresh. rewrite WatcherFacts.loop_body_key, He.
    rewrite decide_False by done. split; [done|]. simpl. set_solver.
  - intros st e He Hseen. rewrite WatcherFacts.loop_body_key, He.
    by rewrite decide_True.
  - destruct (run_forever fromstring self script) as [[self' tr] st] eqn:R.
    apply WatcherFacts.run_forever_dedup in R as [(Hnd & Hfresh & Hseen) _].
    unfold keys_of in *.
    pose proof (CycleFacts.filter_key_once "" _ Hnd) as Hone.
    split; [done|]. split; [|split].
    + pose proof (CycleFacts.reported_among_new "" tr). lia.
    + intros Hin. apply CycleFacts.filter_key_absent.
      intros Hk. by apply Hfresh in Hk.
    + intros Hne. rewrite Hseen.
      destruct (filter _ _) as [|e l] eqn:F; [done|].
      assert (e ∈ filter (λ e, identity_key e = "") (new_entries tr)) as He.
      { rewrite F. by left. }
      apply list_elem_of_filter in He as [He Hin].
      apply elem_of_union_r, elem_of_list_to_set, list_elem_of_fmap. eauto.
Qed.

Lemma empty_key_reported_once_witness :
  loop_body watcher0 sample_blank_1
  = Some (add_key watcher0 "", NewEntry sample_blank_1 (classify_entry sample_blank_1))
  ∧ loop_body (add_key watcher0 "") sample_blank_2 = None
  ∧ (let '(_, tr, _) :=
       run_forever sample_fromstring watcher0
         [ {| got := ok_response xml_blanks None None; slept := Woke |} ] in
     (length (filter (λ e, identity_key e = "") (new_entries tr)) ≤ 1)%nat).
Proof.
  pose proof (empty_key_reported_once sample_fromstring watcher0
    [ {| got := ok_response xml_blanks None None; slept := Woke |} ])
    as (_ & Hfirst & Hnext & Hrun).
  split; [|split].
  - apply (Hfirst watcher0 sample_blank_1); [reflexivity|].
    simpl. apply not_elem_of_empty.
  - apply (Hnext (add_key watcher0 "") sample_blank_2); [reflexivity|].
    simpl. apply elem_of_union_l, elem_of_singleton. reflexivity.
  - destruct (run_forever _ _ _) as [[s tr] st]. apply Hrun.
Defined.

(** C3: the loop goes through the batch oldest first, that is through the
    feed reversed; it skips an entry whose key is in [seen_keys] and
    otherwise adds the key and keeps the entry, as the filter of the
    specification does; the entries kept are in chronological order.  With
    the keys [A, B] in a first cycle and [A, C] in a second one, the new
    entries are [A, B] and then [C]. *)
Theorem dedup_chronological (fromstring : string → option (list Entry)) :
  (∀ self got self1 tr1 xml entries,
     _fetch_if_changed self got = (self1, tr1, Returns (Some xml)) →
     fromstring xml = Some entries →
     let '(self', tr, _) := _check_once fromstring self got in
     new_entries tr = (filterNew (reverse entries) (seen_keys self)).1
     ∧ seen_keys self' = (filterNew (reverse entries) (seen_keys self)).2
     ∧ sublist (new_entries tr) (reverse entries)
     ∧ (∀ e, e ∈ new_entries tr → identity_key e ∉ seen_keys self)
     ∧ NoDup (identity_key <$> new_entries tr)
     ∧ (∀ e, e ∈ entries → identity_key e ∈ seen_keys self')
     ∧ (∀ e, e ∈ entries → identity_key e ∉ seen_keys self →
             identity_key e ∈ identity_key <$> new_entries tr))
  ∧ (∀ self eA eB eC xml1 xml2 tag1 mod1 tag2 mod2,
       identity_key eA ≠ identity_key eB →
       identity_key eA ≠ identity_key eC →
       identity_key eB ≠ identity_key eC →
       identity_key eA ∉ seen_keys self →
       identity_key eB ∉ seen_keys self →
       identity_key eC ∉ seen_keys self →
       fromstring xml1 = Some [eB; eA] →
       fromstring xml2 = Some [eC; eA] →
       let '(self1, tr1, _) :=
         _check_once fromstring self (ok_response xml1 tag1 mod1) in
       let '(self2, tr2, _) :=
         _check_once fromstring self1 (ok_response xml2 tag2 mod2) in
       new_entries tr1 = [eA; eB] ∧ new_entries tr2 = [eC]).
Proof.
  split.
  - intros self got self1 tr1 xml entries F P.
    destruct (CycleFacts.check_once_document fromstring _ _ _ _ _ _ F P)
      as (self' & evs & -> & -> & Hseen & _).
    apply WatcherFacts.fetch_frame in F as (_ & _ & ->).
    rewrite WatcherFacts.new_entries_app, WatcherFacts.new_entries_marks.
    change (new_entries [Get (feed_url self) (request_headers self)]) with (@nil Entry).
    rewrite app_nil_l.
    destruct (filterNew (reverse entries) (seen_keys self)) as [out S'] eqn:E.
    apply WatcherFacts.filterNew_spec in E as (H1 & H2 & H3 & H4 & H5).
    cbn [fst snd] in *. rewrite Hseen.
    repeat split; try done.
    + intros e He. rewrite H2. apply elem_of_union_r, elem_of_list_to_set.
      apply list_elem_of_fmap. exists e. by rewrite elem_of_reverse.
    + intros e He Hfresh.
      assert (identity_key e ∈ S') as Hin.
      { rewrite H2. apply elem_of_union_r, elem_of_list_to_set.
        apply list_elem_of_fmap. exists e. by rewrite elem_of_reverse. }
      rewrite H1 in Hin. apply elem_of_union in Hin as [?|Hin]; [done|].
      by apply elem_of_list_to_set in Hin.
  - intros self eA eB eC xml1 xml2 tag1 mod1 tag2 mod2
      HAB HAC HBC HA HB HC P1 P2.
    destruct (CycleFacts.check_once_document fromstring self
                (ok_response xml1 tag1 mod1) _ _ _ _ eq_refl P1)
      as (self1 & evs1 & -> & -> & Hseen1 & _).
    destruct (CycleFacts.check_once_document fromstring self1
                (ok_response xml2 tag2 mod2) _ _ _ _ eq_refl P2)
      as (self2 & evs2 & -> & -> & Hseen2 & _).
    rewrite !WatcherFacts.new_entries_app, !WatcherFacts.new_entries_marks.
    rewrite Hseen1.
    change (reverse [eB; eA]) with [eA; eB].
    change (reverse [eC; eA]) with [eA; eC]. simpl filterNew.
    rewrite (decide_False (P := identity_key eA ∈ seen_keys self)) by done.
    rewrite (decide_False (P := identity_key eB ∈ _)) by set_solver.
    cbn [fst snd].
    rewrite (decide_True (P := identity_key eA ∈ _)) by set_solver.
    rewrite (decide_False (P := identity_key eC ∈ _)) by set_solver.
    done.
Qed.

Lemma dedup_chronological_witness :
  (let '(_, tr, _) :=
     _check_once sample_fromstring watcher0 (ok_response xml_BA None None) in
   sublist (new_entries tr) (reverse [sample_B; sample_A]))
  ∧ (let '(self1, tr1, _) :=
       _check_once sample_fromstring watcher0 (ok_response xml_BA None None) in
     let '(self2, tr2, _) :=
       _check_once sample_fromstring self1 (ok_response xml_CA None None) in
     new_entries tr1 = [sample_A; sample_B] ∧ new_entries tr2 = [sample_C]).
Proof.
  destruct (dedup_chronological sample_fromstring) as [Hgen Hex].
  split.
  - pose proof (Hgen watcher0 (ok_response xml_BA None None) _ _ _ _
                  eq_refl eq_refl) as H.
    destruct (_check_once _ _ _) as [[s tr] r]. apply H.
  - apply (Hex watcher0 sample_A sample_B sample_C xml_BA xml_CA);
      try reflexivity; try (vm_compute; discriminate);
      simpl; apply not_elem_of_empty.
Defined.

(** C4, as the code has it: a cycle adds a key only for an entry that
    passed the duplicate test in that cycle and went on to the
    classifier, whether a notification was then printed for it or not; a
    cycle that raises, during the fetch or the parsing, has added no
    key. *)
Theorem keys_only_for_new_entries (fromstring : string → option (list Entry))
  (self : AtomStatusWatcher) (got : outcome Response) :
  let '(self', tr, r) := _check_once fromstring self got in
  (∀ k, k ∈ seen_keys self' → k ∉ seen_keys self →
        ∃ e, e ∈ new_entries tr ∧ identity_key e = k)
  ∧ (∀ exc, r = Raises exc →
        seen_keys self' = seen_keys self ∧ new_entries tr = [])
  ∧ (∀ self1 tr1 xml,
        _fetch_if_changed self got = (self1, tr1, Returns (Some xml)) →
        fromstring xml = None →
        r = Raises ParseError ∧ seen_keys self' = seen_keys self).
Proof.
  destruct (_check_once fromstring self got) as [[self' tr] r] eqn:C.
  split; [|split].
  - intros k Hin Hnot.
    apply WatcherFacts.check_once_dedup in C as [(_ & _ & Hseen) _].
    rewrite Hseen in Hin. apply elem_of_union in Hin as [?|Hin]; [done|].
    apply elem_of_list_to_set, list_elem_of_fmap in Hin as (e & -> & He).
    eauto.
  - intros exc ->. by apply WatcherFacts.check_once_raises in C.
  - intros self1 tr1 xml F P. unfold _check_once in C. rewrite F, P in C.
    injection C as <- <- <-. split; [done|].
    by apply WatcherFacts.fetch_frame in F as (? & _).
Qed.

Lemma keys_only_for_new_entries_witness :
  let '(self', tr, r) :=
    _check_once sample_fromstring watcher0 (ok_response xml_broken None None) in
  r = Raises ParseError ∧ seen_keys self' = seen_keys watcher0.
Proof.
  pose proof (keys_only_for_new_entries sample_fromstring watcher0
                (ok_response xml_broken None None)) as H.
  destruct (_check_once _ _ _) as [[self' tr] r].
  destruct H as (_ & _ & H). by apply (H _ _ xml_broken eq_refl).
Defined.

(** C4, as it is written, does not hold: a new entry that the classifier
    does not recognise has its key added and nothing is printed for
    it. *)
Lemma key_added_without_report : ¬ keys_only_for_reported.
Proof.
  intros H.
  specialize (H sample_fromstring watcher0 (ok_response xml_B None None)).
  destruct (CycleFacts.check_once_document sample_fromstring watcher0
              (ok_response xml_B None None) _ _ _ _ eq_refl eq_refl)
    as (self' & evs & C & Hevs & Hseen & _).
  rewrite C in H.
  assert (filterNew (reverse [sample_B]) (seen_keys watcher0)
          = ([sample_B], {[ "B|t2" ]} ∪ ∅)) as E.
  { change (reverse [sample_B]) with [sample_B].
    change (seen_keys watcher0) with (∅ : gset string).
    cbn [filterNew]. by rewrite decide_False by apply not_elem_of_empty. }
  rewrite E in Hevs, Hseen. cbn [fst snd] in *. subst evs.
  destruct (H "B|t2") as (e & He & _).
  - rewrite Hseen. apply elem_of_union_l, elem_of_singleton. reflexivity.
  - apply not_elem_of_empty.
  - vm_compute in He. by apply elem_of_nil in He.
Qed.



(** C6, as the code has it: [_fetch_if_changed] returns the document, or
    nothing, and no validator; when the answer is neither 304 nor an
    error status it stores the entity tag and the last-modified value of
    the answer in the watcher itself, each falling back on the value the
    watcher had when the answer does not carry it.  It sends the one
    request and leaves [seen_keys] and the settings alone, and it leaves
    the whole watcher alone on a 304, on an error status and when the
    request fails. *)
Theorem fetch_if_changed_effect (self : AtomStatusWatcher) (got : outcome Response) :
  let '(self', tr, r) := _fetch_if_changed self got in
  tr = [Get (feed_url self) (request_headers self)]
  ∧ seen_keys self' = seen_keys self
  ∧ feed_url self' = feed_url self
  ∧ poll_interval self' = poll_interval self
  ∧ (∀ resp, got = Returns resp → status resp ≠ 304 → status resp < 400 →
       etag self'
       = match ETag resp with Some v => Some v | None => etag self end
       ∧ last_modified self'
         = match Last_Modified resp with
           | Some v => Some v
           | None => last_modified self
           end
       ∧ r = match text resp with
             | Returns body => Returns (Some body)
             | Raises e => Raises e
             end)
  ∧ (∀ resp, got = Returns resp → status resp = 304 →
       self' = self ∧ r = Returns None)
  ∧ (∀ resp, got = Returns resp → 400 ≤ status resp →
       self' = self ∧ r = Raises (ClientResponseError (status resp)))
  ∧ (∀ e, got = Raises e → self' = self ∧ r = Raises e).
Proof.
  destruct (_fetch_if_changed self got) as [[self' tr] r] eqn:F.
  pose proof (WatcherFacts.fetch_frame _ _ _ _ _ F) as (Hs & [Hu Hp] & Htr).
  do 4 (split; [done|]).
  unfold _fetch_if_changed in F. split; [|split; [|split]].
  - intros resp -> H304 H400.
    apply Z.eqb_neq in H304. rewrite H304 in F.
    apply Z.leb_gt in H400. rewrite H400 in F.
    destruct (text resp); by injection F as <- <- <-.
  - intros resp -> H304. apply Z.eqb_eq in H304. rewrite H304 in F.
    by injection F as <- <- <-.
  - intros resp -> H400.
    assert ((status resp =? 304) = false) as H304 by (apply Z.eqb_neq; lia).
    apply Z.leb_le in H400. rewrite H304, H400 in F.
    by injection F as <- <- <-.
  - intros e ->. by injection F as <- <- <-.
Qed.

Lemma fetch_if_changed_effect_witness :
  let '(self', _, r) :=
    _fetch_if_changed watcher0 (ok_response xml_A (Some "v1") None) in
  etag self' = Some "v1" ∧ last_modified self' = None
  ∧ r = Returns (Some xml_A).
Proof.
  pose proof (fetch_if_changed_effect watcher0
                (ok_response xml_A (Some "v1") None)) as H.
  destruct (_fetch_if_changed _ _) as [[self' tr] r].
  destruct H as (_ & _ & _ & _ & H & _).
  apply (H _ eq_refl); simpl; lia.
Defined.

(** C6, as it is written, does not hold: the fetch changes the
    validators of the watcher it is called on. *)
Lemma fetch_mutates_validators : ¬ fetch_keeps_validators.
Proof.
  intros H.
  specialize (H watcher0 (ok_response xml_A (Some "v1") None)).
  simpl in H. by destruct H as [[=] _].
Qed.

(** C7: in a cycle where the server answers 304, no document comes back,
    [_check_once] returns [False] having only sent its request, and the
    watcher after the cycle is the watcher before it: [seen_keys], the
    entity tag and the last-modified value are unchanged. *)
Theorem not_modified_changes_nothing (fromstring : string → option (list Entry))
  (self : AtomStatusWatcher) (t : Tick) (resp : Response) :
  got t = Returns resp → status resp = 304 →
  _fetch_if_changed self (got t)
  = (self, [Get (feed_url self) (request_headers self)], Returns None)
  ∧ _check_once fromstring self (got t)
    = (self, [Get (feed_url self) (request_headers self)], Returns false)
  ∧ (let '(self', tr, _) := cycle fromstring self t in
     self' = self
     ∧ seen_keys self' = seen_keys self
     ∧ etag self' = etag self
     ∧ last_modified self' = last_modified self
     ∧ new_entries tr = []).
Proof.
  intros Hg H304.
  assert (_fetch_if_changed self (got t)
          = (self, [Get (feed_url self) (request_headers self)], Returns None))
    as F.
  { unfold _fetch_if_changed. rewrite Hg.
    apply Z.eqb_eq in H304. by rewrite H304. }
  assert (_check_once fromstring self (got t)
          = (self, [Get (feed_url self) (request_headers self)], Returns false))
    as C.
  { unfold _check_once. by rewrite F. }
  split; [done|]. split; [done|].
  unfold cycle. rewrite C.
  destruct (asyncio_sleep _ _) as [e|]; [destruct (is_Exception e)|]; done.
Qed.

(** A watcher that has polled before. *)
Lemma not_modified_changes_nothing_witness :
  let self := add_key (set_validators watcher0
                {| status := 200; ETag := Some "v1";
                   Last_Modified := Some "Mon, 02 Nov 2026 10:00:00 GMT";
                   text := Returns xml_A |}) "A|t1" in
  let '(self', tr, r) :=
    cycle sample_fromstring self {| got := not_modified; slept := Woke |} in
  self' = self ∧ new_entries tr = [] ∧ r = None.
Proof.
  intros self.
  pose proof (not_modified_changes_nothing sample_fromstring self
                {| got := not_modified; slept := Woke |} _ eq_refl eq_refl)
    as (_ & _ & H).
  assert ((cycle sample_fromstring self
             {| got := not_modified; slept := Woke |}).2 = None) as Hr
    by (vm_compute; reflexivity).
  revert H Hr. destruct (cycle _ _ _) as [[self' tr] r].
  intros (H1 & _ & _ & _ & H2) Hr. split; [exact H1|]. split; [exact H2|exact Hr].
Defined.

(** C8: when an entry has an id and an update time, its key is the id, a
    bar and the update time; so two entries with the same id and different
    update times have different keys, and when the feed shows the one in a
    cycle and the other in a later cycle, each is new in its cycle and
    goes to the classifier. *)
Theorem edited_entry_is_new (fromstring : string → option (list Entry))
  (self : AtomStatusWatcher) (e1 e2 : Entry) (xml1 xml2 : string)
  (tag1 mod1 tag2 mod2 : option string) :
  entry_id e1 ≠ "" → updated e1 ≠ "" → updated e2 ≠ "" →
  entry_id e2 = entry_id e1 → updated e2 ≠ updated e1 →
  identity_key e1 ∉ seen_keys self → identity_key e2 ∉ seen_keys self →
  fromstring xml1 = Some [e1] → fromstring xml2 = Some [e2] →
  identity_key e1 = entry_id e1 +:+ "|" +:+ updated e1
  ∧ identity_key e2 = entry_id e1 +:+ "|" +:+ updated e2
  ∧ identity_key e1 ≠ identity_key e2
  ∧ (let '(self1, tr1, r1) :=
       _check_once fromstring self (ok_response xml1 tag1 mod1) in
     let '(self2, tr2, r2) :=
       _check_once fromstring self1 (ok_response xml2 tag2 mod2) in
     new_entries tr1 = [e1] ∧ r1 = Returns true
     ∧ printed_events tr1 = option_list (classify_entry e1)
     ∧ new_entries tr2 = [e2] ∧ r2 = Returns true
     ∧ printed_events tr2 = option_list (classify_entry e2)).
Proof.
  intros Hid1 Hu1 Hu2 Hid Hne Hf1 Hf2 P1 P2.
  assert (identity_key e1 = entry_id e1 +:+ "|" +:+ updated e1) as K1
    by by apply WatcherFacts.identity_key_full.
  assert (identity_key e2 = entry_id e1 +:+ "|" +:+ updated e2) as K2.
  { rewrite <- Hid. apply WatcherFacts.identity_key_full; congruence. }
  assert (identity_key e1 ≠ identity_key e2) as Hk.
  { rewrite K1, K2. intros H. apply (inj _) in H.
    change ("|" +:+ updated e1) with (String "|" (updated e1)) in H.
    change ("|" +:+ updated e2) with (String "|" (updated e2)) in H.
    by injection H as H. }
  do 3 (split; [done|]).
  destruct (CycleFacts.check_once_document fromstring self
              (ok_response xml1 tag1 mod1) _ _ _ _ eq_refl P1)
    as (self1 & evs1 & -> & -> & Hseen1 & _).
  destruct (CycleFacts.check_once_document fromstring self1
              (ok_response xml2 tag2 mod2) _ _ _ _ eq_refl P2)
    as (self2 & evs2 & -> & -> & Hseen2 & _).
  rewrite Hseen1.
  change (reverse [e1]) with [e1]. change (reverse [e2]) with [e2].
  cbn [filterNew].
  rewrite (decide_False (P := identity_key e1 ∈ seen_keys self)) by done.
  cbn [fst snd filterNew].
  rewrite (decide_False (P := identity_key e2 ∈ _)) by set_solver.
  cbn [fst snd]. simpl. by destruct (classify_entry e1), (classify_entry e2).
Qed.

Lemma edited_entry_is_new_witness :
  identity_key sample_A ≠ identity_key sample_A_edited
  ∧ (let '(self1, tr1, r1) :=
       _check_once sample_fromstring watcher0 (ok_response xml_A None None) in
     let '(self2, tr2, r2) :=
       _check_once sample_fromstring self1 (ok_response xml_A_edited None None) in
     new_entries tr1 = [sample_A] ∧ r1 = Returns true
     ∧ printed_events tr1 = option_list (classify_entry sample_A)
     ∧ new_entries tr2 = [sample_A_edited] ∧ r2 = Returns true
     ∧ printed_events tr2 = option_list (classify_entry sample_A_edited)).
Proof.
  assert (identity_key sample_A ∉ seen_keys watcher0) as HA
    by apply not_elem_of_empty.
  assert (identity_key sample_A_edited ∉ seen_keys watcher0) as HA'
    by apply not_elem_of_empty.
  destruct (edited_entry_is_new sample_fromstring watcher0
              sample_A sample_A_edited xml_A xml_A_edited None None None None)
    as (_ & _ & Hk & H); try done.
Defined.

(** * Further properties *)

(** ** The normaliser: its image and its fixed points *)

Module NormalFacts.
Import Text TextFacts ClassifierFacts.

#[local] Arguments Ascii.eqb : simpl never.
#[local] Arguments is_space : simpl never.

Lemma length_app s t :
  String.length (s +:+ t) = (String.length s + String.length t)%nat.
Proof. induction s as [|c s IH]; [done|]. rewrite app_cons. simpl. by rewrite IH. Qed.

Lemma suffix_of_app a s : suffix_of s (a +:+ s).
Proof. induction a as [|c a IH]; [constructor|]. rewrite app_cons. by constructor. Qed.

Lemma app_snoc a c r : (a +:+ String c "") +:+ r = a +:+ String c r.
Proof. by rewrite app_assoc. Qed.

(** *** Tags *)

Lemma after_gt_none_occurs t : after_gt t = None ↔ ¬ occurs ">" t.
Proof.
  rewrite <- str_in_false. induction t as [|c t IH]; [done|].
  change (str_in ">" (String c t))
    with (Ascii.eqb ">" c && starts_with "" t || str_in ">" t).
  simpl. rewrite (Ascii.eqb_sym ">" c).
  destruct (Ascii.eqb c ">"); [by destruct t|]. simpl. exact IH.
Qed.

Lemma after_gt_some r rest :
  after_gt r = Some rest → ∃ u, after_gt u = None ∧ r = u +:+ ">" +:+ rest.
Proof.
  induction r as [|c r IH]; [done|]. simpl.
  destruct (Ascii.eqb c ">") eqn:E.
  - intros [= <-]. apply Ascii.eqb_eq in E as ->. by exists "".
  - intros (u & Hu & ->)%IH. exists (String c u). simpl. by rewrite E.
Qed.

Lemma after_gt_app u rest :
  after_gt u = None → after_gt (u +:+ ">" +:+ rest) = Some rest.
Proof.
  induction u as [|c u IH]; [done|]. rewrite app_cons. simpl.
  destruct (Ascii.eqb c ">"); [done|]. exact IH.
Qed.

Lemma match_tag_some t rest :
  match_tag t = Some rest →
  ∃ u, u ≠ "" ∧ ¬ occurs ">" u ∧ t = "<" +:+ u +:+ ">" +:+ rest.
Proof.
  destruct t as [|a [|c r]]; try done. simpl.
  destruct (Ascii.eqb a "<") eqn:Ea; [|done].
  destruct (Ascii.eqb c ">") eqn:Ec; [done|]. simpl.
  intros (u & Hu & ->)%after_gt_some. apply Ascii.eqb_eq in Ea as ->.
  exists (String c u). split; [done|]. split; [|done].
  apply after_gt_none_occurs. simpl. by rewrite Ec.
Qed.

Lemma match_tag_hit u b :
  u ≠ "" → ¬ occurs ">" u → match_tag ("<" +:+ u +:+ ">" +:+ b) = Some b.
Proof.
  destruct u as [|c u]; [done|]. intros _ H%after_gt_none_occurs.
  simpl in H. destruct (Ascii.eqb c ">") eqn:Ec; [done|].
  change (match_tag (String "<" (String c (u +:+ ">" +:+ b))) = Some b).
  simpl. rewrite Ec. simpl. by apply after_gt_app.
Qed.

Lemma no_tag_unmatched a s : ¬ has_tag (a +:+ s) → unmatched match_tag s.
Proof.
  revert a. induction s as [|c r IH]; [done|]. intros a H. split.
  - destruct (match_tag (String c r)) as [rest|] eqn:E; [|done].
    apply match_tag_some in E as (u & Hu & Hgt & E). destruct H.
    exists a, u, rest. by rewrite E.
  - apply (IH (a +:+ String c "")). by rewrite app_snoc.
Qed.

Lemma unmatched_no_tag s : unmatched match_tag s ↔ ¬ has_tag s.
Proof.
  split; [|apply (no_tag_unmatched "")].
  intros H (a & t & b & Ht & Hgt & ->).
  apply (unmatched_suffix _ _ _ (suffix_of_app a _)) in H.
  pose proof (match_tag_hit t b Ht Hgt) as Hhit.
  change ("<" +:+ t +:+ ">" +:+ b) with (String "<" (t +:+ ">" +:+ b)) in *.
  destruct H as [H _]. congruence.
Qed.

(** *** The entity *)

Lemma drop_prefix_some p s rest : drop_prefix p s = Some rest → s = p +:+ rest.
Proof.
  revert s. induction p as [|a p IH]; intros [|b s]; simpl; try done.
  - by intros [= <-].
  - by intros [= <-].
  - destruct (Ascii.eqb a b) eqn:E; [|done]. apply Ascii.eqb_eq in E as ->.
    intros ->%IH. done.
Qed.

Lemma drop_prefix_app p rest : drop_prefix p (p +:+ rest) = Some rest.
Proof.
  induction p as [|a p IH]; [by destruct rest|]. rewrite app_cons. simpl.
  by rewrite Ascii.eqb_refl.
Qed.

Lemma no_nbsp_unmatched a s :
  ¬ occurs "&nbsp;" (a +:+ s) → unmatched match_nbsp s.
Proof.
  revert a. induction s as [|c r IH]; [done|]. intros a H. split.
  - destruct (match_nbsp (String c r)) as [rest|] eqn:E; [|done].
    apply drop_prefix_some in E. destruct H. exists a, rest. by rewrite E.
  - apply (IH (a +:+ String c "")). by rewrite app_snoc.
Qed.

Lemma unmatched_no_nbsp s : unmatched match_nbsp s ↔ ¬ occurs "&nbsp;" s.
Proof.
  split; [|apply (no_nbsp_unmatched "")].
  intros H (a & b & ->).
  apply (unmatched_suffix _ _ _ (suffix_of_app a _)) in H.
  pose proof (drop_prefix_app "&nbsp;" b) as Hhit.
  change ("&nbsp;" +:+ b) with (String "&" ("nbsp;" +:+ b)) in *.
  destruct H as [H _]. unfold match_nbsp in H. congruence.
Qed.

(** *** White space *)

Lemma rstrip_app_space a c :
  is_space c = true → rstrip (a +:+ String c "") = rstrip a.
Proof.
  intros Hc. induction a as [|d a IH].
  - change (rstrip (String c "") = ""). rewrite rstrip_cons. simpl. by rewrite Hc.
  - rewrite app_cons, !rstrip_cons. by rewrite IH.
Qed.

Lemma rstrip_length s : (String.length (rstrip s) ≤ String.length s)%nat.
Proof.
  destruct (rstrip_prefix s) as [w Hw]. rewrite Hw at 2. rewrite length_app. lia.
Qed.

Lemma rstrip_fixed_last s a c :
  rstrip s = s → s = a +:+ String c "" → is_space c = false.
Proof.
  intros Hs ->. destruct (is_space c) eqn:Hc; [|done].
  rewrite rstrip_app_space in Hs by done.
  pose proof (rstrip_length a) as Hl. rewrite Hs, length_app in Hl.
  simpl in Hl. lia.
Qed.

Lemma rstrip_fixed s :
  (∀ a c, s = a +:+ String c "" → is_space c = false) → rstrip s = s.
Proof.
  induction s as [|c r IH]; [done|]. intros H. rewrite rstrip_cons.
  destruct r as [|d r].
  - simpl. by rewrite (H "" c).
  - rewrite IH; [done|]. intros a c' E. apply (H (String c a) c').
    by rewrite app_cons, <- E.
Qed.

Lemma strip_ends x : head_not_space (strip x) ∧ rstrip (strip x) = strip x.
Proof.
  unfold strip. split; [apply rstrip_head, lstrip_head|apply rstrip_idem].
Qed.

Lemma ws_norm_tidy s :
  ws_norm s → head_not_space s → rstrip s = s → tidy_spaces s.
Proof.
  intros Hw Hh Hr a c b -> Hc.
  pose proof (ws_norm_suffix _ _ (suffix_of_app a _) Hw) as [Hcb _].
  destruct (Hcb Hc) as [-> Hb]. split; [done|]. split; [|split; [|done]].
  - intros ->. simpl in Hh. congruence.
  - intros ->. pose proof (rstrip_fixed_last _ _ _ Hr eq_refl). congruence.
Qed.

Lemma tidy_ws_norm a s : tidy_spaces (a +:+ s) → ws_norm s.
Proof.
  revert a. induction s as [|c r IH]; [done|]. intros a H. split.
  - intros Hc. by destruct (H a c r eq_refl Hc) as (? & _ & _ & ?).
  - apply (IH (a +:+ String c "")). by rewrite app_snoc.
Qed.

Lemma tidy_strip s : tidy_spaces s → strip s = s.
Proof.
  intros H. unfold strip. rewrite lstrip_id.
  - apply rstrip_fixed. intros a c -> . destruct (is_space c) eqn:Hc; [|done].
    by destruct (H a c "" eq_refl Hc) as (_ & _ & ? & _).
  - destruct s as [|c b]; [done|]. simpl.
    destruct (is_space c) eqn:Hc; [|done].
    by destruct (H "" c b eq_refl Hc) as (_ & ? & _).
Qed.

Lemma strip_html_image text : normal_text (strip_html text).
Proof.
  destruct (strip_html_normal text) as (Ht & Hn & Hw & _).
  split; [by apply unmatched_no_tag|]. split; [by apply unmatched_no_nbsp|].
  apply ws_norm_tidy; [done|apply strip_ends..].
Qed.

(** *** Length *)

Lemma re_sub_length m (Hm : cuts m) s :
  (String.length (re_sub m " " s) ≤ String.length s)%nat.
Proof.
  revert s. apply (re_sub_ind m " " Hm
    (λ s out, (String.length out ≤ String.length s)%nat)).
  - done.
  - intros c r rest _ Hsuf IH. apply suffix_of_length in Hsuf.
    change (" " +:+ ?x) with (String " " x). simpl. lia.
  - intros c r _ IH. simpl. lia.
Qed.

Lemma strip_length s : (String.length (strip s) ≤ String.length s)%nat.
Proof.
  unfold strip. pose proof (rstrip_length (lstrip s)).
  pose proof (suffix_of_length _ _ (lstrip_suffix s)). lia.
Qed.

(** *** Blank texts *)

Lemma all_space_unmatched m s :
  (∀ c x, is_space c = true → m (String c x) = None) →
  all_space s → unmatched m s.
Proof.
  intros Hm. induction s as [|c r IH]; [done|]. intros [Hc Hr]. split; auto.
Qed.

Lemma all_space_lstrip s : all_space s → lstrip s = "".
Proof. induction s as [|c r IH]; [done|]. simpl. intros [-> Hr]. auto. Qed.

Lemma space_not c d : is_space c = true → is_space d = false → Ascii.eqb c d = false.
Proof.
  intros Hc Hd. destruct (Ascii.eqb c d) eqn:E; [|done].
  apply Ascii.eqb_eq in E as ->. congruence.
Qed.

Lemma strip_html_all_space text : all_space text → strip_html text = "".
Proof.
  intros H. unfold strip_html.
  rewrite (re_sub_unmatched match_tag).
  2:{ apply all_space_unmatched; [|done]. intros c x Hc.
      apply match_tag_not_lt. by apply space_not. }
  rewrite (re_sub_unmatched match_nbsp).
  2:{ apply all_space_unmatched; [|done]. intros c x Hc.
      unfold match_nbsp.
      change (drop_prefix "&nbsp;" (String c x))
        with (if Ascii.eqb "&" c then drop_prefix "nbsp;" x else None).
      by rewrite Ascii.eqb_sym, (space_not c "&"). }
  destruct text as [|c r]; [done|]. destruct H as [Hc Hr].
  rewrite (re_sub_cons _ _ match_ws_cuts). simpl.
  rewrite Hc, (all_space_lstrip _ Hr). reflexivity.
Qed.

End NormalFacts.

(** X1: what [strip_html] returns holds no tag and no [&nbsp;], and its
    only white space is single spaces between other characters. *)
Theorem strip_html_normal_text (text : string) : normal_text (strip_html text).
Proof. apply NormalFacts.strip_html_image. Qed.

(** X2: the texts [strip_html] leaves as they are, are exactly the normal
    texts. *)
Theorem strip_html_fixed_iff (x : string) : strip_html x = x ↔ normal_text x.
Proof.
  split.
  - intros <-. apply NormalFacts.strip_html_image.
  - intros (Ht & Hn & Hs). apply strip_html_fixed.
    + by apply NormalFacts.unmatched_no_tag.
    + by apply NormalFacts.unmatched_no_nbsp.
    + by apply (NormalFacts.tidy_ws_norm "").
    + by apply NormalFacts.tidy_strip.
Qed.

(** X3: [strip_html] never makes a text longer. *)
Theorem strip_html_length (text : string) :
  (String.length (strip_html text) ≤ String.length text)%nat.
Proof.
  unfold strip_html.
  pose proof (NormalFacts.strip_length
    (Text.re_sub Text.match_ws " "
       (Text.re_sub Text.match_nbsp " " (Text.re_sub Text.match_tag " " text)))).
  pose proof (NormalFacts.re_sub_length _ TextFacts.match_ws_cuts
    (Text.re_sub Text.match_nbsp " " (Text.re_sub Text.match_tag " " text))).
  pose proof (NormalFacts.re_sub_length _ TextFacts.match_nbsp_cuts
    (Text.re_sub Text.match_tag " " text)).
  pose proof (NormalFacts.re_sub_length _ TextFacts.match_tag_cuts text).
  lia.
Qed.

(** X4: a text of white space only is normalised to the empty text. *)
Theorem strip_html_blank (text : string) :
  Text.all_space text → strip_html text = "".
Proof. apply NormalFacts.strip_html_all_space. Qed.

Lemma strip_html_blank_witness : strip_html "   " = "".
Proof. apply strip_html_blank. repeat split. Defined.

(** ** The classifier: what it can return *)

Module DetectFacts.
Import Text TextFacts ClassifierFacts.

#[local] Arguments Ascii.eqb : simpl never.
#[local] Arguments is_space : simpl never.

Lemma scan_patterns_in hay ps label :
  scan_patterns hay ps = Some label →
  ∃ needle, (needle, label) ∈ ps ∧ str_in needle hay = true.
Proof.
  induction ps as [|[n l] ps IH]; [done|]. simpl.
  destruct (str_in n hay) eqn:E.
  - intros [= <-]. exists n. split; [by left|done].
  - intros (needle & Hin & Hn)%IH. exists needle. split; [by right|done].
Qed.

Lemma scan_patterns_none_iff hay ps :
  scan_patterns hay ps = None ↔ Forall (λ p, str_in p.1 hay = false) ps.
Proof.
  induction ps as [|[n l] ps IH]; [done|]. simpl. rewrite Forall_cons. simpl.
  destruct (str_in n hay); [|by rewrite IH; intuition].
  split; [done|by intros [? _]].
Qed.

Lemma occurs_trans x n h : occurs x n → occurs n h → occurs x h.
Proof.
  intros (a & b & ->) (a' & b' & ->). exists (a' +:+ a), (b +:+ b').
  by rewrite !app_assoc.
Qed.

Lemma str_in_mono x n h :
  str_in x n = true → str_in n h = true → str_in x h = true.
Proof. rewrite !str_in_spec. apply occurs_trans. Qed.

Lemma message_of_cases title body :
  message_of title body
  = if decide (strip body = "") then strip title else strip body.
Proof.
  unfold message_of, str_or.
  destruct (decide (strip body = "")) as [->|Hne]; [done|].
  by destruct (strip body).
Qed.

Lemma message_of_stripped title body :
  strip (message_of title body) = message_of title body.
Proof.
  rewrite message_of_cases. destruct (decide _); apply strip_idem.
Qed.

Lemma labels_nonempty : Forall (λ l, l ≠ "") PRODUCT_LABELS.
Proof. repeat constructor; done. Qed.

(** The classifier returns nothing, or a label of the table with a
    message that is not empty. *)
Lemma detect_cases title body :
  detect_product_and_message title body = (None, None)
  ∨ ∃ label, detect_product_and_message title body
             = (Some label, Some (message_of title body))
      ∧ label ∈ PRODUCT_LABELS ∧ label ≠ "" ∧ message_of title body ≠ "".
Proof.
  assert (∀ label, label ∈ PRODUCT_LABELS →
            detect_product_and_message title body
            = (Some label, Some (message_of title body)) →
            ∃ l, detect_product_and_message title body
                 = (Some l, Some (message_of title body))
              ∧ l ∈ PRODUCT_LABELS ∧ l ≠ "" ∧ message_of title body ≠ "") as Hok.
  { intros label Hl H. exists label. repeat split; [done..| |].
    - pose proof labels_nonempty as Hne. rewrite Forall_forall in Hne. auto.
    - by eapply detect_message_nonempty. }
  unfold detect_product_and_message in *.
  destruct (scan_patterns _ PRODUCT_PATTERNS) as [label|] eqn:E.
  - right. apply (Hok label); [|done].
    apply scan_patterns_in in E as (n & Hin & _). right.
    apply list_elem_of_fmap. by exists (n, label).
  - destruct (str_in "api" _); [|by left]. right.
    apply (Hok "OpenAI API"); [by left|done].
Qed.

Lemma lower_haystack title body :
  lower (title +:+ " " +:+ body) = lower title +:+ " " +:+ lower body.
Proof. by rewrite !lower_app. Qed.

(** The needles that hold [api], and the three that do not. *)
Lemma needles_api :
  Forall (λ p, str_in "api" p.1 = true
               ∨ p.1 ∈ ["chat/completions"; "chat completions"; "embeddings"])
    PRODUCT_PATTERNS.
Proof.
  repeat constructor; simpl;
    first [ left; reflexivity
          | right; repeat first [ by left | right ] ].
Qed.

End DetectFacts.

(** X5: the classifier returns nothing at all, or a label together with a
    message; the label is the generic one or a label of the table, and the
    message is never empty: it is the trimmed body, or the trimmed title
    when the trimmed body is empty, and trimming it again changes
    nothing. *)
Theorem detect_result_shape (title body : string) :
  detect_product_and_message title body = (None, None)
  ∨ ∃ label message,
      detect_product_and_message title body = (Some label, Some message)
      ∧ label ∈ PRODUCT_LABELS
      ∧ message ≠ ""
      ∧ Text.strip message = message
      ∧ message = (if decide (Text.strip body = "")
                   then Text.strip title else Text.strip body).
Proof.
  destruct (DetectFacts.detect_cases title body)
    as [H|(label & H & Hl & _ & Hm)]; [by left|right].
  exists label, (message_of title body).
  repeat split; [done..|apply DetectFacts.message_of_stripped
                |apply DetectFacts.message_of_cases].
Qed.

(** X6: the product depends on the title and the body only up to the case
    of their letters. *)
Theorem detect_case_insensitive (title title' body body' : string) :
  Text.lower title = Text.lower title' →
  Text.lower body = Text.lower body' →
  (detect_product_and_message title body).1
  = (detect_product_and_message title' body').1.
Proof.
  intros Ht Hb. unfold detect_product_and_message.
  rewrite !DetectFacts.lower_haystack, Ht, Hb.
  destruct (scan_patterns _ _); [done|]. by destruct (Text.str_in _ _).
Qed.

Lemma detect_case_insensitive_witness :
  (detect_product_and_message "Realtime API down" "Investigating").1
  = (detect_product_and_message "REALTIME api DOWN" "investigating").1.
Proof. apply detect_case_insensitive; reflexivity. Defined.

(** X7: the classifier returns nothing exactly when none of [api],
    [chat/completions], [chat completions] and [embeddings] occurs in
    title, space and body, whatever the case of the letters. *)
Theorem detect_nothing_iff (title body : string) :
  detect_product_and_message title body = (None, None)
  ↔ ¬ Text.occurs_ci "api" (title +:+ " " +:+ body)
    ∧ ¬ Text.occurs_ci "chat/completions" (title +:+ " " +:+ body)
    ∧ ¬ Text.occurs_ci "chat completions" (title +:+ " " +:+ body)
    ∧ ¬ Text.occurs_ci "embeddings" (title +:+ " " +:+ body).
Proof.
  rewrite <- !ClassifierFacts.occurs_lower by reflexivity.
  rewrite <- !ClassifierFacts.str_in_false.
  unfold detect_product_and_message.
  set (hay := Text.lower (title +:+ " " +:+ body)).
  split.
  - destruct (scan_patterns hay PRODUCT_PATTERNS) eqn:E; [done|].
    destruct (Text.str_in "api" hay) eqn:Ea; [done|]. intros _.
    apply DetectFacts.scan_patterns_none_iff in E.
    rewrite Forall_forall in E. split; [done|].
    split; [|split].
    + apply (E ("chat/completions", "OpenAI API - Chat Completions")).
      unfold PRODUCT_PATTERNS. set_solver.
    + apply (E ("chat completions", "OpenAI API - Chat Completions")).
      unfold PRODUCT_PATTERNS. set_solver.
    + apply (E ("embeddings", "OpenAI API - Embeddings")).
      unfold PRODUCT_PATTERNS. set_solver.
  - intros (Ha & H1 & H2 & H3).
    assert (scan_patterns hay PRODUCT_PATTERNS = None) as ->.
    { apply DetectFacts.scan_patterns_none_iff.
      eapply Forall_impl; [apply DetectFacts.needles_api|].
      intros [n l] [Hn|Hn]; simpl in *.
      - destruct (Text.str_in n hay) eqn:E; [|done].
        by rewrite (DetectFacts.str_in_mono _ _ _ Hn E) in Ha.
      - set_solver. }
    by rewrite Ha.
Qed.

(** X8: the rows [embeddings api] and [openai api] of the table decide
    nothing: without them the classifier returns the same for every title
    and body. *)
Theorem detect_two_rows_redundant (title body : string) :
  detect_with PRODUCT_PATTERNS_short title body
  = detect_product_and_message title body.
Proof.
  unfold detect_with, detect_product_and_message.
  set (hay := Text.lower (title +:+ " " +:+ body)).
  unfold PRODUCT_PATTERNS_short, PRODUCT_PATTERNS. cbn [scan_patterns].
  destruct (Text.str_in "chat/completions" hay); [done|].
  destruct (Text.str_in "chat completions" hay); [done|].
  destruct (Text.str_in "responses api" hay); [done|].
  destruct (Text.str_in "assistants api" hay); [done|].
  destruct (Text.str_in "realtime api" hay); [done|].
  destruct (Text.str_in "files api" hay); [done|].
  destruct (Text.str_in "file api" hay); [done|].
  destruct (Text.str_in "embeddings api" hay) eqn:E1.
  { by rewrite (DetectFacts.str_in_mono "embeddings" "embeddings api" hay eq_refl E1). }
  destruct (Text.str_in "embeddings" hay); [done|].
  destruct (Text.str_in "fine-tuning api" hay); [done|].
  destruct (Text.str_in "fine tuning api" hay); [done|].
  destruct (Text.str_in "openai api" hay) eqn:E2; [|done].
  by rewrite (DetectFacts.str_in_mono "api" "openai api" hay eq_refl E2).
Qed.

(** X9: for a new entry, something is printed exactly when the classifier
    names a product, and then with the label and the message it gave: the
    test on the message never holds back a classified entry. *)
Theorem classify_entry_iff (entry : Entry) :
  (∀ product message,
      classify_entry entry = Some (product, message)
      ↔ detect_product_and_message (title entry) (strip_html (body_raw entry))
        = (Some product, Some message))
  ∧ (classify_entry entry = None
     ↔ detect_product_and_message (title entry) (strip_html (body_raw entry))
       = (None, None)).
Proof.
  unfold classify_entry.
  destruct (DetectFacts.detect_cases (title entry) (strip_html (body_raw entry)))
    as [->|(label & -> & _ & Hl & Hm)].
  - split; [|done]. intros p m. split; intros [=].
  - assert (notification (Some label)
              (Some (message_of (title entry) (strip_html (body_raw entry))))
            = Some (label, message_of (title entry) (strip_html (body_raw entry))))
      as ->.
    { unfold notification, truthy.
      destruct label; [done|].
      by destruct (message_of _ _). }
    split; [|done]. intros p m. split; by intros [= <- <-].
Qed.

(** X10: a summary of white space only counts as the body: the content is
    not looked at, the body is normalised to the empty text and the
    classifier is left with the title. *)
Theorem blank_summary_hides_content (entry : Entry) :
  summary entry ≠ "" → Text.all_space (summary entry) →
  strip_html (body_raw entry) = ""
  ∧ classify_entry entry
    = (let '(product, message) := detect_product_and_message (title entry) "" in
       notification product message).
Proof.
  intros Hne Hsp.
  assert (body_raw entry = summary entry) as Hraw.
  { unfold body_raw, Text.str_or. by destruct (summary entry). }
  assert (strip_html (body_raw entry) = "") as Hclean.
  { rewrite Hraw. by apply NormalFacts.strip_html_all_space. }
  split; [done|]. unfold classify_entry. by rewrite Hclean.
Qed.

Lemma blank_summary_hides_content_witness :
  classify_entry
    {| entry_id := "9"; updated := "t9"; title := "Files API issue";
       summary := " "; content := "<p>Uploads are failing</p>" |}
  = Some ("OpenAI API - Files", "Files API issue").
Proof.
  apply (proj2 (blank_summary_hides_content
    {| entry_id := "9"; updated := "t9"; title := "Files API issue";
       summary := " "; content := "<p>Uploads are failing</p>" |}
    ltac:(discriminate) ltac:(repeat split))).
Defined.

(** ** The watcher: keys, cycles and runs *)

Module RunFacts.
Import WatcherFacts CycleFacts.

Lemma filterNew_all_seen es (S : gset string) :
  (∀ e, e ∈ es → identity_key e ∈ S) → filterNew es S = ([], S).
Proof.
  induction es as [|e es IH]; [done|]. intros H. simpl.
  rewrite decide_True by (apply H; by left).
  apply IH. intros e' He'. apply H. by right.
Qed.

Lemma filterNew_all_fresh es (S : gset string) :
  NoDup (identity_key <$> es) → (∀ e, e ∈ es → identity_key e ∉ S) →
  (filterNew es S).1 = es.
Proof.
  revert S. induction es as [|e es IH]; [done|]. intros S.
  rewrite fmap_cons, NoDup_cons. intros [Hk Hnd] Hfresh. simpl.
  rewrite decide_False by (apply Hfresh; by left).
  specialize (IH ({[identity_key e]} ∪ S) Hnd).
  destruct (filterNew es ({[identity_key e]} ∪ S)) as [out S'].
  simpl in *. f_equal. apply IH. intros e' He'.
  apply not_elem_of_union. split; [|apply Hfresh; by right].
  intros Heq%elem_of_singleton. apply Hk. rewrite <- Heq.
  apply list_elem_of_fmap. eauto.
Qed.

Lemma requests_app tr1 tr2 : requests (tr1 ++ tr2) = requests tr1 ++ requests tr2.
Proof. apply omap_app. Qed.

Lemma requests_marks (es : list Entry) :
  requests ((λ e, NewEntry e (classify_entry e)) <$> es) = [].
Proof. induction es as [|e es IH]; [done|]. exact IH. Qed.

Section WithParser.
Context (fromstring : string → option (list Entry)).

(** A cycle sends one request, to the address of the watcher and with its
    conditional headers. *)
Lemma check_once_requests self got self' tr r :
  _check_once fromstring self got = (self', tr, r) →
  requests tr = [(feed_url self, request_headers self)].
Proof.
  unfold _check_once.
  destruct (_fetch_if_changed self got) as [[s1 tr1] r1] eqn:F.
  apply fetch_frame in F as (_ & _ & ->).
  destruct r1 as [[xml|]|e]; [|by intros [= <- <- <-]..].
  destruct (fromstring xml) as [entries|]; [|by intros [= <- <- <-]].
  destruct (for_entries (reverse entries) s1 false) as [[s2 c] evs] eqn:E.
  apply for_entries_filterNew in E as (-> & _).
  intros [= <- <- <-].
  change (requests (Get (feed_url self) (request_headers self)
                    :: ((λ e, NewEntry e (classify_entry e))
                        <$> (filterNew (reverse entries) (seen_keys s1)).1)))
    with ((feed_url self, request_headers self)
          :: requests ((λ e, NewEntry e (classify_entry e))
                       <$> (filterNew (reverse entries) (seen_keys s1)).1)).
  by rewrite requests_marks.
Qed.

Lemma cycle_trace self t self' tr r :
  cycle fromstring self t = (self', tr, r) →
  requests tr = [(feed_url self, request_headers self)]
  ∧ Forall (λ n, n = poll_interval self) (sleeps tr)
  ∧ (r = None → sleeps tr = [poll_interval self]).
Proof.
  intros C. pose proof (cycle_outcome _ _ _ _ _ _ C) as Hout.
  unfold cycle in C.
  destruct (_check_once fromstring self (got t)) as [[s1 tr1] r1] eqn:E.
  pose proof (check_once_requests _ _ _ _ _ E) as Hrq.
  pose proof (check_once_sleeps _ _ _ _ _ _ E) as Hsl.
  pose proof (check_once_dedup _ _ _ _ _ _ E) as [_ [_ Hpoll]].
  rewrite Hpoll in C.
  assert (requests tr = [(feed_url self, request_headers self)]
          ∧ Forall (λ n, n = poll_interval self) (sleeps tr)) as [Hreq Hall].
  { destruct r1 as [c|exc];
      [destruct (asyncio_sleep _ _) as [e|]; [destruct (is_Exception e)|]
      |destruct (is_Exception exc)];
      injection C as <- <- <-;
      rewrite ?requests_app, ?sleeps_app, Hrq, ?Hsl; simpl;
      (split; [done|by repeat constructor]). }
  split; [done|]. split; [done|].
  intros ->. by destruct Hout as [(_ & ? & _)|[[[=] _]|[[=] _]]].
Qed.

Lemma run_forever_trace script self self' tr st :
  run_forever fromstring self script = (self', tr, st) →
  Forall (λ rq, rq.1 = feed_url self) (requests tr)
  ∧ Forall (λ n, n = poll_interval self) (sleeps tr)
  ∧ (length (requests tr) ≤ length script)%nat
  ∧ (st = Running →
     length (requests tr) = length script
     ∧ length (sleeps tr) = length script)
  ∧ (script ≠ [] → head (requests tr) = Some (feed_url self, request_headers self)).
Proof.
  revert self self' tr st.
  induction script as [|t script IH]; intros self self' tr st; simpl.
  - intros [= <- <- <-]. by repeat split.
  - destruct (cycle fromstring self t) as [[s1 tr1] r1] eqn:C.
    pose proof (cycle_dedup _ _ _ _ _ _ C) as [_ [Hurl Hpoll]].
    apply cycle_trace in C as (Hrq & Hsl & Hnone).
    destruct r1 as [e|].
    + intros [= <- <- <-]. rewrite Hrq. simpl.
      split; [by repeat constructor|]. split; [done|].
      split; [lia|]. by split.
    + destruct (run_forever fromstring s1 script) as [[s2 tr2] st2] eqn:R.
      intros [= <- <- <-].
      apply IH in R as (H1 & H2 & H3 & H4 & _).
      rewrite requests_app, sleeps_app, Hrq, (Hnone eq_refl).
      rewrite Hurl in H1. rewrite Hpoll in H2. simpl.
      split; [by constructor|]. split; [by constructor|].
      split; [lia|]. split; [|done].
      intros Hst. destruct (H4 Hst). lia.
Qed.

End WithParser.

End RunFacts.

(** X11: when the id is missing the key is the update time, and when the
    update time is missing the key is the id; so an entry without update
    time whose id spells a key already seen is skipped as a duplicate of
    the entry that left that key. *)
Theorem identity_key_one_field :
  (∀ e, entry_id e = "" → identity_key e = updated e)
  ∧ (∀ e, updated e = "" → identity_key e = entry_id e)
  ∧ (∀ self e1 e2,
       updated e2 = "" → entry_id e2 = identity_key e1 →
       identity_key e1 ∈ seen_keys self →
       loop_body self e2 = None).
Proof.
  assert (∀ e, updated e = "" → identity_key e = entry_id e) as Hid.
  { intros e H. unfold identity_key, Text.str_or. rewrite H.
    by destruct (entry_id e). }
  split; [|split; [done|]].
  - intros e H. unfold identity_key, Text.str_or. rewrite H.
    by destruct (updated e).
  - intros self e1 e2 Hu He Hseen.
    rewrite WatcherFacts.loop_body_key, (Hid e2 Hu), He.
    by rewrite decide_True.
Qed.

Lemma identity_key_one_field_witness :
  loop_body (add_key watcher0 (identity_key sample_A))
    {| entry_id := "A|t1"; updated := ""; title := "Files API issue";
       summary := "new"; content := "" |}
  = None.
Proof.
  destruct identity_key_one_field as (_ & _ & H).
  apply (H _ sample_A); [reflexivity..|].
  simpl. apply elem_of_union_l, elem_of_singleton. reflexivity.
Defined.

(** X12: a run only adds keys: the keys at its end are the keys at its
    start and the keys of the entries it took as new; the address and the
    interval of the watcher do not change. *)
Theorem run_forever_only_adds (fromstring : string → option (list Entry))
  (self : AtomStatusWatcher) (script : list Tick) :
  let '(self', tr, _) := run_forever fromstring self script in
  seen_keys self ⊆ seen_keys self'
  ∧ seen_keys self' = seen_keys self ∪ list_to_set (identity_key <$> new_entries tr)
  ∧ feed_url self' = feed_url self
  ∧ poll_interval self' = poll_interval self.
Proof.
  destruct (run_forever fromstring self script) as [[self' tr] st] eqn:R.
  apply WatcherFacts.run_forever_dedup in R as [(_ & _ & Hseen) [Hu Hp]].
  unfold keys_of in Hseen. repeat split; [|done..].
  rewrite Hseen. apply union_subseteq_l.
Qed.

(** X13: a document all of whose entries have keys the watcher has seen
    brings nothing new: no entry is marked, nothing is printed, the cycle
    returns [False] and the keys stay as they are.  So the same document
    polled a second time is silent. *)
Theorem known_entries_are_skipped (fromstring : string → option (list Entry)) :
  (∀ self got self1 tr1 xml entries,
     _fetch_if_changed self got = (self1, tr1, Returns (Some xml)) →
     fromstring xml = Some entries →
     (∀ e, e ∈ entries → identity_key e ∈ seen_keys self) →
     let '(self', tr, r) := _check_once fromstring self got in
     new_entries tr = [] ∧ printed_events tr = []
     ∧ r = Returns false ∧ seen_keys self' = seen_keys self)
  ∧ (∀ self xml entries tag1 mod1 tag2 mod2,
       fromstring xml = Some entries →
       let '(self1, _, _) :=
         _check_once fromstring self (ok_response xml tag1 mod1) in
       let '(self2, tr2, r2) :=
         _check_once fromstring self1 (ok_response xml tag2 mod2) in
       new_entries tr2 = [] ∧ printed_events tr2 = []
       ∧ r2 = Returns false ∧ seen_keys self2 = seen_keys self1).
Proof.
  assert (∀ self got self1 tr1 xml entries,
     _fetch_if_changed self got = (self1, tr1, Returns (Some xml)) →
     fromstring xml = Some entries →
     (∀ e, e ∈ entries → identity_key e ∈ seen_keys self) →
     ∃ self', _check_once fromstring self got = (self', tr1, Returns false)
              ∧ seen_keys self' = seen_keys self
              ∧ new_entries tr1 = [] ∧ printed_events tr1 = []) as Hgen.
  { intros self got self1 tr1 xml entries F P Hseen.
    destruct (CycleFacts.check_once_document fromstring _ _ _ _ _ _ F P)
      as (self' & evs & C & -> & Hs & _).
    rewrite RunFacts.filterNew_all_seen in C, Hs.
    2,3: intros e He; apply Hseen; by apply elem_of_reverse.
    simpl in C, Hs. rewrite app_nil_r in C.
    apply WatcherFacts.fetch_frame in F as (_ & _ & ->). by exists self'. }
  split.
  - intros self got self1 tr1 xml entries F P Hseen.
    destruct (Hgen _ _ _ _ _ _ F P Hseen) as (self' & -> & ? & ? & ?). done.
  - intros self xml entries tag1 mod1 tag2 mod2 P.
    destruct (CycleFacts.check_once_document fromstring self
                (ok_response xml tag1 mod1) _ _ _ _ eq_refl P)
      as (self1 & evs1 & -> & _ & Hs1 & _).
    destruct (Hgen self1 (ok_response xml tag2 mod2) _ _ _ _ eq_refl P)
      as (self2 & -> & ? & ? & ?); [|done].
    intros e He. rewrite Hs1.
    destruct (filterNew (reverse entries) (seen_keys self)) as [out S'] eqn:E.
    apply WatcherFacts.filterNew_spec in E as (_ & -> & _). simpl.
    apply elem_of_union_r, elem_of_list_to_set, list_elem_of_fmap.
    exists e. by rewrite elem_of_reverse.
Qed.

Lemma known_entries_are_skipped_witness :
  let '(self1, _, _) :=
    _check_once sample_fromstring watcher0 (ok_response xml_BA None None) in
  let '(self2, tr2, r2) :=
    _check_once sample_fromstring self1 (ok_response xml_BA None None) in
  new_entries tr2 = [] ∧ printed_events tr2 = []
  ∧ r2 = Returns false ∧ seen_keys self2 = seen_keys self1.
Proof.
  destruct (known_entries_are_skipped sample_fromstring) as [_ H].
  apply (H watcher0 xml_BA [sample_B; sample_A]). reflexivity.
Defined.

(** X14: when the entries of a document have distinct keys, none of them
    seen, they are all new, oldest first: the new entries are the
    document reversed, and each is printed or not as the classifier
    decides. *)
Theorem fresh_entries_all_new (fromstring : string → option (list Entry))
  (self : AtomStatusWatcher) (got : outcome Response)
  (self1 : AtomStatusWatcher) (tr1 : list Event) (xml : string)
  (entries : list Entry) :
  _fetch_if_changed self got = (self1, tr1, Returns (Some xml)) →
  fromstring xml = Some entries →
  NoDup (identity_key <$> entries) →
  (∀ e, e ∈ entries → identity_key e ∉ seen_keys self) →
  let '(_, tr, r) := _check_once fromstring self got in
  new_entries tr = reverse entries
  ∧ printed_events tr = omap classify_entry (reverse entries)
  ∧ (entries ≠ [] → r = Returns true).
Proof.
  intros F P Hnd Hfresh.
  destruct (CycleFacts.check_once_document fromstring _ _ _ _ _ _ F P)
    as (self' & evs & -> & -> & _).
  apply WatcherFacts.fetch_frame in F as (_ & _ & ->).
  rewrite RunFacts.filterNew_all_fresh.
  - split; [apply WatcherFacts.new_entries_marks|].
    split; [apply CycleFacts.printed_events_marks|].
    intros Hne. f_equal. apply bool_decide_eq_true.
    destruct entries as [|e es]; [done|].
    rewrite reverse_cons, fmap_app. by destruct (_ <$> reverse es).
  - by rewrite fmap_reverse, reverse_Permutation.
  - intros e He. apply Hfresh. by apply elem_of_reverse.
Qed.

Lemma fresh_entries_all_new_witness :
  let '(_, tr, r) :=
    _check_once sample_fromstring watcher0 (ok_response xml_CA None None) in
  new_entries tr = [sample_A; sample_C] ∧ r = Returns true.
Proof.
  pose proof (fresh_entries_all_new sample_fromstring watcher0
                (ok_response xml_CA None None) _ _ xml_CA
                [sample_C; sample_A] eq_refl eq_refl) as H.
  destruct (_check_once _ _ _) as [[s tr] r].
  destruct H as (H1 & _ & H3).
  - repeat constructor; set_solver.
  - intros e _. apply not_elem_of_empty.
  - split; [exact H1|]. by apply H3.
Defined.

(** X15: a cycle returns [True] exactly when it took an entry as new, and
    exactly when it added a key. *)
Theorem check_once_true_iff_new (fromstring : string → option (list Entry))
  (self : AtomStatusWatcher) (got : outcome Response) :
  let '(self', tr, r) := _check_once fromstring self got in
  ∀ changed, r = Returns changed →
    (changed = true ↔ new_entries tr ≠ [])
    ∧ (changed = true ↔ seen_keys self' ≠ seen_keys self).
Proof.
  destruct (_check_once fromstring self got) as [[self' tr] r] eqn:C.
  intros changed ->.
  pose proof (WatcherFacts.check_once_dedup _ _ _ _ _ _ C)
    as [(_ & Hfresh & Hseen) _].
  assert (new_entries tr ≠ [] ↔ seen_keys self' ≠ seen_keys self) as Hiff.
  { unfold keys_of in *. rewrite Hseen. destruct (new_entries tr) as [|e l].
    - simpl. split; [done|]. intros H. destruct H. set_solver.
    - split; [|done]. intros _ Heq.
      apply (Hfresh (identity_key e)); [by left|].
      rewrite <- Heq. set_solver. }
  assert (changed = true ↔ new_entries tr ≠ []) as Hch; [|by rewrite <- Hiff].
  unfold _check_once in C.
  destruct (_fetch_if_changed self got) as [[s1 tr1] r1] eqn:F.
  destruct r1 as [[xml|]|e]; [| |done].
  2:{ apply WatcherFacts.fetch_frame in F as (_ & _ & ->).
      injection C as <- <- <-. split; [done|]. by intros []. }
  destruct (fromstring xml) as [entries|] eqn:P; [|done].
  destruct (CycleFacts.check_once_document fromstring _ _ _ _ _ _ F P)
    as (s2 & evs & C' & -> & _).
  unfold _check_once in C'. rewrite F, P in C'. rewrite C' in C.
  injection C as <- <- <-.
  apply WatcherFacts.fetch_frame in F as (_ & _ & ->).
  rewrite WatcherFacts.new_entries_app, WatcherFacts.new_entries_marks.
  rewrite bool_decide_eq_true. simpl.
  by destruct (filterNew (reverse entries) (seen_keys self)).1.
Qed.

Lemma check_once_true_iff_new_witness :
  let '(self', tr, _) :=
    _check_once sample_fromstring watcher0 (ok_response xml_B None None) in
  new_entries tr ≠ [] ∧ seen_keys self' ≠ seen_keys watcher0.
Proof.
  pose proof (check_once_true_iff_new sample_fromstring watcher0
                (ok_response xml_B None None)) as H.
  destruct (_check_once _ _ _) as [[self' tr] r] eqn:C.
  assert (r = Returns true) as Hr.
  { vm_compute in C. by injection C as _ _ <-. }
  destruct (H true Hr) as [H1 H2]. split; [by apply H1|by apply H2].
Defined.

Module LogFacts.
Import WatcherFacts CycleFacts RunFacts.

Lemma logged_app tr1 tr2 : logged (tr1 ++ tr2) = logged tr1 ++ logged tr2.
Proof. apply omap_app. Qed.

Lemma logged_marks (es : list Entry) :
  logged ((λ e, NewEntry e (classify_entry e)) <$> es) = [].
Proof. induction es as [|e es IH]; [done|]. exact IH. Qed.

Section WithParser.
Context (fromstring : string → option (list Entry)).

Lemma check_once_logged self got self' tr r :
  _check_once fromstring self got = (self', tr, r) → logged tr = [].
Proof.
  unfold _check_once.
  destruct (_fetch_if_changed self got) as [[s1 tr1] r1] eqn:F.
  apply fetch_frame in F as (_ & _ & ->).
  destruct r1 as [[xml|]|e]; [|by intros [= <- <- <-]..].
  destruct (fromstring xml) as [entries|]; [|by intros [= <- <- <-]].
  destruct (for_entries (reverse entries) s1 false) as [[s2 c] evs] eqn:E.
  apply for_entries_filterNew in E as (-> & _).
  intros [= <- <- <-]. apply logged_marks.
Qed.

(** A cycle logs at most one exception, and never the cancellation. *)
Lemma cycle_logged self t self' tr r :
  cycle fromstring self t = (self', tr, r) →
  Forall (λ exc, exc ≠ CancelledError) (logged tr)
  ∧ (length (logged tr) ≤ 1)%nat.
Proof.
  unfold cycle.
  destruct (_check_once fromstring self (got t)) as [[s1 tr1] r1] eqn:E.
  apply check_once_logged in E.
  destruct r1 as [c|exc];
    [destruct (asyncio_sleep _ _) as [e|]; [destruct (is_Exception e) eqn:Ex|]
    |destruct (is_Exception exc) eqn:Ex];
    intros [= <- <- <-]; rewrite ?logged_app, E; simpl;
    (split; [|lia]); repeat constructor; by intros ->.
Qed.

Lemma run_forever_logged script self self' tr st :
  run_forever fromstring self script = (self', tr, st) →
  Forall (λ exc, exc ≠ CancelledError) (logged tr)
  ∧ (length (logged tr) ≤ length (requests tr))%nat.
Proof.
  revert self self' tr st.
  induction script as [|t script IH]; intros self self' tr st; simpl.
  - by intros [= <- <- <-].
  - destruct (cycle fromstring self t) as [[s1 tr1] r1] eqn:C.
    pose proof (cycle_logged _ _ _ _ _ C) as [Hall Hlen].
    apply cycle_trace in C as (Hrq & _).
    destruct r1 as [e|].
    + intros [= <- <- <-]. rewrite Hrq. by split.
    + destruct (run_forever fromstring s1 script) as [[s2 tr2] st2] eqn:R.
      intros [= <- <- <-]. apply IH in R as [H1 H2].
      rewrite logged_app, requests_app, Hrq, !length_app. simpl. split.
      * by apply Forall_app.
      * lia.
Qed.
End WithParser.

End LogFacts.

(** X16: the validators of an accepted answer are stored before its body
    is read and parsed: when the body cannot be read, or is not a
    document the XML library accepts, the cycle raises, no key is added,
    and the watcher nevertheless holds the entity tag and the
    last-modified value of that answer. *)
Theorem validators_stored_before_failure
  (fromstring : string → option (list Entry))
  (self : AtomStatusWatcher) (resp : Response) :
  status resp ≠ 304 → status resp < 400 →
  (∀ body, text resp = Returns body → fromstring body = None) →
  let '(self', tr, r) := _check_once fromstring self (Returns resp) in
  (∃ exc, r = Raises exc)
  ∧ etag self' = match ETag resp with Some v => Some v | None => etag self end
  ∧ last_modified self'
    = match Last_Modified resp with
      | Some v => Some v
      | None => last_modified self
      end
  ∧ seen_keys self' = seen_keys self
  ∧ new_entries tr = [].
Proof.
  intros H304 H400 Hbad. unfold _check_once, _fetch_if_changed.
  apply Z.eqb_neq in H304. apply Z.leb_gt in H400. rewrite H304, H400.
  destruct (text resp) as [body|e] eqn:T.
  - rewrite (Hbad body eq_refl). repeat split. by exists ParseError.
  - repeat split. by exists e.
Qed.

Lemma validators_stored_before_failure_witness :
  let '(self', _, r) :=
    _check_once sample_fromstring watcher0
      (ok_response xml_broken (Some "v7") None) in
  (∃ exc, r = Raises exc) ∧ etag self' = Some "v7".
Proof.
  assert (∀ body, Returns xml_broken = Returns body →
                  sample_fromstring body = None) as Hbad.
  { intros body [= <-]. reflexivity. }
  pose proof (validators_stored_before_failure sample_fromstring watcher0
    {| status := 200; ETag := Some "v7"; Last_Modified := None;
       text := Returns xml_broken |}
    ltac:(simpl; lia) ltac:(simpl; lia) Hbad) as H.
  unfold ok_response. revert H.
  destruct (_check_once _ _ _) as [[self' tr] r].
  intros (Hr & He & _). split; [exact Hr|exact He].
Defined.

(** X17: a request carries [If-None-Match] exactly when the watcher holds
    an entity tag that is not empty, and [If-Modified-Since] exactly when
    it holds such a last-modified value, and nothing else; a new watcher
    sends none; and the validators an accepted answer brings are sent with
    the next request. *)
Theorem validators_sent_back :
  (∀ self name value,
     (name, value) ∈ request_headers self
     ↔ (name = "If-None-Match" ∧ etag self = Some value ∧ value ≠ "")
       ∨ (name = "If-Modified-Since" ∧ last_modified self = Some value
          ∧ value ≠ ""))
  ∧ (∀ url interval, request_headers (__init__ url interval) = [])
  ∧ (∀ self resp self' tr r,
       _fetch_if_changed self (Returns resp) = (self', tr, r) →
       status resp ≠ 304 → status resp < 400 →
       (∀ v, ETag resp = Some v → v ≠ "" →
             ("If-None-Match", v) ∈ request_headers self')
       ∧ (∀ v, Last_Modified resp = Some v → v ≠ "" →
               ("If-Modified-Since", v) ∈ request_headers self')).
Proof.
  assert (∀ self name value,
     (name, value) ∈ request_headers self
     ↔ (name = "If-None-Match" ∧ etag self = Some value ∧ value ≠ "")
       ∨ (name = "If-Modified-Since" ∧ last_modified self = Some value
          ∧ value ≠ "")) as Hchar.
  { intros self name value. unfold request_headers, truthy.
    destruct (etag self) as [[|a e]|], (last_modified self) as [[|b m]|];
      simpl; rewrite ?elem_of_cons, ?elem_of_nil; split;
      intros H; repeat destruct H as [H|H];
      simplify_eq; intuition (simplify_eq; eauto). }
  split; [done|]. split; [done|].
  intros self resp self' tr r F H304 H400.
  unfold _fetch_if_changed in F.
  apply Z.eqb_neq in H304. apply Z.leb_gt in H400. rewrite H304, H400 in F.
  assert (self' = set_validators self resp) as ->
    by (destruct (text resp); by injection F as <- _ _).
  split; intros v Hv Hne; apply Hchar; [left|right]; simpl; rewrite Hv; done.
Qed.

Lemma validators_sent_back_witness :
  let '(self', _, _) :=
    _fetch_if_changed watcher0
      (ok_response xml_A (Some "v1") (Some "Mon, 02 Nov 2026 10:00:00 GMT")) in
  request_headers self'
  = [("If-None-Match", "v1");
     ("If-Modified-Since", "Mon, 02 Nov 2026 10:00:00 GMT")].
Proof.
  destruct validators_sent_back as (_ & _ & H).
  destruct (_fetch_if_changed _ _) as [[self' tr] r] eqn:F.
  destruct (H watcher0 _ self' tr r F) as [H1 H2]; [simpl; lia..|].
  specialize (H1 "v1" eq_refl ltac:(discriminate)).
  injection F as <- _ _. reflexivity.
Defined.

(** X18: every request of the program goes to [FEED_URL] and every wait
    lasts 60 seconds; its first request carries no conditional header; it
    sends at most one request per tick of the script, and one request
    and one wait per tick as long as it is running. *)
Theorem main_requests (fromstring : string → option (list Entry))
  (script : list Tick) :
  let '(_, tr, st) := main fromstring script in
  Forall (λ rq, rq.1 = FEED_URL) (requests tr)
  ∧ Forall (λ n, n = 60) (sleeps tr)
  ∧ (script ≠ [] → head (requests tr) = Some (FEED_URL, []))
  ∧ (length (requests tr) ≤ length script)%nat
  ∧ (st = Running →
     length (requests tr) = length script
     ∧ length (sleeps tr) = length script).
Proof.
  unfold main.
  destruct (run_forever fromstring (__init__ FEED_URL 60) script)
    as [[self' tr] st] eqn:R.
  apply RunFacts.run_forever_trace in R as (H1 & H2 & H3 & H4 & H5).
  done.
Qed.

Lemma main_requests_witness :
  let '(_, tr, _) :=
    main sample_fromstring
      [ {| got := ok_response xml_A (Some "v1") None; slept := Woke |};
        {| got := not_modified; slept := SleepCancelled |} ] in
  head (requests tr) = Some (FEED_URL, []).
Proof.
  pose proof (main_requests sample_fromstring
      [ {| got := ok_response xml_A (Some "v1") None; slept := Woke |};
        {| got := not_modified; slept := SleepCancelled |} ]) as H.
  destruct (main _ _) as [[s tr] st].
  destruct H as (_ & _ & H & _). by apply H.
Defined.

(** X19: with a poll interval that fits a float, an exception other than
    a cancellation that the fetch or the parsing raises is caught and
    logged, the loop waits for the interval and goes on; a cancellation,
    during the check or the wait, leaves the loop, and nothing else
    does.  So against a script without cancellation the loop is still
    running at the end, having waited once per cycle, and a loop that has
    stopped was cancelled. *)
Theorem poll_loop_in_range (fromstring : string → option (list Entry))
  (self : AtomStatusWatcher) :
  poll_interval self < SLEEP_OVERFLOW →
  (∀ t self' tr exc,
     _check_once fromstring self (got t) = (self', tr, Raises exc) →
     exc ≠ CancelledError → slept t = Woke →
     cycle fromstring self t
     = (self', tr ++ [LogException exc; Sleep (poll_interval self)], None))
  ∧ (∀ t self' tr,
       _check_once fromstring self (got t) = (self', tr, Raises CancelledError) →
       cycle fromstring self t = (self', tr, Some CancelledError))
  ∧ (∀ t, slept t = SleepCancelled →
       (cycle fromstring self t).2 = Some CancelledError)
  ∧ (∀ t e, (cycle fromstring self t).2 = Some e →
       e = CancelledError ∧ cancelled t)
  ∧ (∀ script, Forall uncancelled script →
       let '(_, tr, st) := run_forever fromstring self script in
       st = Running
       ∧ sleeps tr = replicate (length script) (poll_interval self))
  ∧ (∀ script self' tr e,
       run_forever fromstring self script = (self', tr, Terminated e) →
       e = CancelledError ∧ Exists cancelled script).
Proof.
  intros Hrange.
  assert (∀ o, asyncio_sleep (poll_interval self) o
               = match o with
                 | Woke => None
                 | SleepCancelled => Some CancelledError
                 end) as Hsleep.
  { intros o. unfold asyncio_sleep.
    by destruct (Z.leb_spec SLEEP_OVERFLOW (poll_interval self)); [lia|]. }
  split; [|split; [|split; [|split; [|split]]]].
  - intros t self' tr exc C Hexc Hs.
    pose proof (WatcherFacts.check_once_dedup _ _ _ _ _ _ C) as [_ [_ Hpoll]].
    unfold cycle. rewrite C, Hpoll, Hsleep, Hs. by destruct exc.
  - intros t self' tr C. unfold cycle. by rewrite C.
  - intros t Hs. unfold cycle.
    destruct (_check_once fromstring self (got t)) as [[s1 tr1] r1] eqn:C.
    pose proof (WatcherFacts.check_once_dedup _ _ _ _ _ _ C) as [_ [_ Hpoll]].
    rewrite Hpoll, Hsleep, Hs.
    destruct r1 as [c|exc]; [done|]. by destruct exc.
  - intros t e.
    destruct (cycle fromstring self t) as [[s1 tr1] r] eqn:C.
    apply CycleFacts.cycle_outcome in C as [(-> & _)|[[-> Hc]|[_ ?]]];
      simpl; [done| |lia].
    by intros [= <-].
  - intros script Hall.
    destruct (run_forever fromstring self script) as [[s tr] st] eqn:R.
    by apply (CycleFacts.run_forever_uncancelled fromstring) in R.
  - intros script self' tr e R.
    apply CycleFacts.run_forever_terminated in R as [?|[_ ?]]; [done|lia].
Qed.

Lemma poll_loop_in_range_witness :
  cycle sample_fromstring watcher0
    {| got := ok_response xml_broken None None; slept := Woke |}
  = (watcher0, [Get FEED_URL []; LogException ParseError; Sleep 60], None)
  ∧ (let '(_, tr, st) :=
       run_forever sample_fromstring watcher0
         [ {| got := Raises ClientError; slept := Woke |};
           {| got := ok_response xml_broken None None; slept := Woke |};
           {| got := ok_response xml_A None None; slept := Woke |} ] in
     st = Running ∧ sleeps tr = [60; 60; 60]).
Proof.
  assert (poll_interval watcher0 < SLEEP_OVERFLOW) as Hrange by reflexivity.
  destruct (poll_loop_in_range sample_fromstring watcher0 Hrange)
    as (Hcatch & _ & _ & _ & Hrun & _).
  split.
  - apply (Hcatch
             {| got := ok_response xml_broken None None; slept := Woke |}
             watcher0 [Get FEED_URL []] ParseError);
      [reflexivity|discriminate|reflexivity].
  - apply Hrun. repeat constructor; simpl; try discriminate.
    + intros resp [= <-]. discriminate.
    + intros resp [= <-]. discriminate.
Defined.

(** X20: the loop logs only exceptions it goes on after: a cancellation
    is never logged, and there is at most one log per request. *)
Theorem cancellation_never_logged (fromstring : string → option (list Entry))
  (self : AtomStatusWatcher) (script : list Tick) :
  let '(_, tr, _) := run_forever fromstring self script in
  Forall (λ exc, exc ≠ CancelledError) (logged tr)
  ∧ (length (logged tr) ≤ length (requests tr))%nat.
Proof.
  destruct (run_forever fromstring self script) as [[self' tr] st] eqn:R.
  by apply LogFacts.run_forever_logged in R.
Qed.

(** ** The guard on the message *)

Module GuardFacts.



End GuardFacts.



